(** * Assembly statistics of MATAM: [scripts/compute_assembly_stats.py]

    A shallow embedding of the alignment-statistics script and the
    properties of its reference loader, CIGAR parser, alignment walker,
    coverage accounting and final report.

    Conventions of the embedding.
    - A Python [str] (a byte string, the script is Python 2) is a [string];
      a Python integer is a [Z]; a Python list is a [list]; a [dict] keyed
      by strings is a [gmap string _].
    - A Python exception aborts the script: every operation that can raise
      returns a [result], and the exception kind is kept.
    - Subscripts follow Python: a negative index counts from the end, an
      index outside [-len, len) raises [IndexError].
    - Integers are unbounded, and the bounds given to [xrange] are taken
      to fit a machine integer.
    - A Python float is an IEEE 754 binary64 number, the [spec_float] of
      the Standard Library at precision 53: every operation rounds to the
      nearest double, ties to even. An integer that meets a float is
      converted to the nearest double first; the integers converted are
      taken to be in the range of a double. A division by zero raises.
    - The script reads [flag & 0x10] into a variable it never uses; the
      embedding leaves it out. The report is the record of the numbers the
      script prints. *)

From Stdlib Require Import ZArith Ascii String List Lia Floats.SpecFloat.
From stdpp Require Import base option list gmap strings.

Local Open Scope Z_scope.

(** ** Python primitives *)

Module Py.

Inductive exn : Type :=
| IndexError
| KeyError
| ValueError
| ZeroDivisionError.

Inductive result (A : Type) : Type :=
| Ok (a : A)
| Err (e : exn).
Arguments Ok {A} a.
Arguments Err {A} e.

Definition bind {A B} (m : result A) (k : A → result B) : result B :=
  match m with
  | Ok a => k a
  | Err e => Err e
  end.

Definition succeeds {A} (m : result A) : Prop := ∃ a, m = Ok a.

(** [c.isdigit()] on a one-character byte string. *)
Definition isdigit (c : ascii) : bool :=
  let n := N_of_ascii c in ((48 <=? n) && (n <=? 57))%N.

(** [c.isspace()]: tab, newline, vertical tab, form feed, carriage return,
    space. *)
Definition isspace (c : ascii) : bool :=
  let n := N_of_ascii c in (((9 <=? n) && (n <=? 13)) || (n =? 32))%N.

Definition digit_value (c : ascii) : Z := Z.of_N (N_of_ascii c) - 48.

Fixpoint all_digits (s : string) : bool :=
  match s with
  | EmptyString => true
  | String c s' => isdigit c && all_digits s'
  end.

Fixpoint digits_value (acc : Z) (s : string) : Z :=
  match s with
  | EmptyString => acc
  | String c s' => digits_value (acc * 10 + digit_value c) s'
  end.

Definition int_unsigned (s : string) : result Z :=
  match s with
  | EmptyString => Err ValueError
  | _ => if all_digits s then Ok (digits_value 0 s) else Err ValueError
  end.

(** [str.lstrip()], [str.rstrip()], [str.strip()]. *)
Fixpoint lstrip (s : string) : string :=
  match s with
  | EmptyString => EmptyString
  | String c s' => if isspace c then lstrip s' else s
  end.

Fixpoint rstrip (s : string) : string :=
  match s with
  | EmptyString => EmptyString
  | String c s' =>
      match rstrip s' with
      | EmptyString => if isspace c then EmptyString else String c EmptyString
      | t => String c t
      end
  end.

Definition strip (s : string) : string := lstrip (rstrip s).

(** [int(s)] in base ten: surrounding white space, an optional sign, then
    one digit or more. *)
Definition int (s : string) : result Z :=
  match strip s with
  | String "+"%char d => int_unsigned d
  | String "-"%char d => bind (int_unsigned d) (λ n, Ok (- n))
  | d => int_unsigned d
  end.

(** [s.split()] without argument: the maximal runs of characters that are
    not white space. *)
Fixpoint split (s : string) : list string :=
  match s with
  | EmptyString => []
  | String c s' =>
      if isspace c then split s'
      else match s' with
           | EmptyString => [String c EmptyString]
           | String c' _ =>
               if isspace c' then String c EmptyString :: split s'
               else match split s' with
                    | t :: ts => String c t :: ts
                    | [] => [String c EmptyString]
                    end
           end
  end.

(** [s.upper()] on a byte string. *)
Definition upper_char (c : ascii) : ascii :=
  let n := N_of_ascii c in
  if ((97 <=? n) && (n <=? 122))%N then ascii_of_N (n - 32) else c.

Fixpoint upper (s : string) : string :=
  match s with
  | EmptyString => EmptyString
  | String c s' => String (upper_char c) (upper s')
  end.

(** [''.join(l)]. *)
Fixpoint join (l : list string) : string :=
  match l with
  | [] => EmptyString
  | s :: l' => String.append s (join l')
  end.

Definition len (s : string) : Z := Z.of_nat (String.length s).

(** The position a subscript [i] denotes in a sequence of [n] items. *)
Definition norm_index (n i : Z) : result nat :=
  if (0 <=? i) && (i <? n) then Ok (Z.to_nat i)
  else if (- n <=? i) && (i <? 0) then Ok (Z.to_nat (n + i))
  else Err IndexError.

(** [s[i]] on a string. *)
Definition getitem_str (s : string) (i : Z) : result ascii :=
  bind (norm_index (len s) i) (λ k,
    match String.get k s with
    | Some c => Ok c
    | None => Err IndexError
    end).

(** [l[i]] on a list. *)
Definition getitem {A} (l : list A) (i : Z) : result A :=
  bind (norm_index (Z.of_nat (length l)) i) (λ k,
    match l !! k with
    | Some a => Ok a
    | None => Err IndexError
    end).

(** [l[i] += 1] on a list of integers. *)
Definition incr_item (l : list Z) (i : Z) : result (list Z) :=
  bind (norm_index (Z.of_nat (length l)) i) (λ k,
    match l !! k with
    | Some a => Ok (<[k := a + 1]> l)
    | None => Err IndexError
    end).

(** [d[k]] on a dictionary. *)
Definition getkey {V} (d : gmap string V) (k : string) : result V :=
  match d !! k with
  | Some v => Ok v
  | None => Err KeyError
  end.

End Py.

Import Py.

#[global] Instance result_bind : MBind result := λ A B k m, Py.bind m k.
#[global] Instance result_ret : MRet result := λ A a, Ok a.

(** A [for] loop whose body can raise. *)
Fixpoint foldM {A B} (f : A → B → result A) (a : A) (l : list B) : result A :=
  match l with
  | [] => Ok a
  | b :: l' => a' ← f a b; foldM f a' l'
  end.

(** ** The CIGAR parser: [parse_cigar] *)

(** The loop of [parse_cigar]; [count_str] and [cigar_tab] are the two
    local variables of the function. *)
Fixpoint parse_cigar_loop (cigar : string) (count_str : string)
    (cigar_tab : list (ascii * Z)) : result (list (ascii * Z)) :=
  match cigar with
  | EmptyString => Ok cigar_tab
  | String c rest =>
      if isdigit c then
        parse_cigar_loop rest (String.append count_str (String c EmptyString)) cigar_tab
      else
        count ← match count_str with
                | EmptyString => Ok 1
                | _ => int count_str
                end;
        parse_cigar_loop rest EmptyString (cigar_tab ++ [(c, count)])
  end.

Definition parse_cigar (cigar : string) : result (list (ascii * Z)) :=
  parse_cigar_loop cigar EmptyString [].


(** ** The sequence loader: [read_fasta_file_handle] *)

(** [line[1:]]. *)
Definition drop_first (line : string) : string :=
  match line with
  | EmptyString => EmptyString
  | String _ t => t
  end.

(** The generator, as the list of the pairs it yields. [header],
    [seqlines] and [sequence_nb] are its local variables. *)
Fixpoint read_fasta_loop (lines : list string) (header : string)
    (seqlines : list string) (sequence_nb : Z) : result (list (string * string)) :=
  match lines with
  | [] => Ok [(header, join seqlines)]
  | line :: rest =>
      c ← getitem_str line 0;
      if Ascii.eqb c ">" then
        let header' := rstrip (drop_first line) in
        if sequence_nb =? 0 then
          read_fasta_loop rest header' seqlines (sequence_nb + 1)
        else
          records ← read_fasta_loop rest header' [] (sequence_nb + 1);
          Ok ((header, join seqlines) :: records)
      else
        read_fasta_loop rest header (seqlines ++ [strip line]) sequence_nb
  end.

Definition read_fasta_file_handle (fasta_file_handle : list string)
  : result (list (string * string)) :=
  read_fasta_loop fasta_file_handle EmptyString [] 0.

(** ** The reference catalog *)

Record catalog := Catalog {
  ref_seq_dict : gmap string string;
  ref_positions_count_dict : gmap string (list Z);
  total_ref_length : Z
}.

Definition empty_catalog : catalog := Catalog ∅ ∅ 0.

(** The body of the loop over the loader's pairs. *)
Definition load_reference (cat : catalog) (rec : string * string) : result catalog :=
  let '(header, seq) := rec in
  seqid ← getitem (split header) 0;
  Ok (Catalog (<[seqid := upper seq]> (ref_seq_dict cat))
              (<[seqid := replicate (String.length seq) 0]> (ref_positions_count_dict cat))
              (total_ref_length cat + len seq)).

Definition load_references (records : list (string * string)) : result catalog :=
  foldM load_reference empty_catalog records.

(** ** Alignment records *)

(** The fields of one alignment line that the script reads;
    [query_seq] is already upper-cased, as the local variable is. *)
Record sam_record := SamRecord {
  query_id : string;
  flag : Z;
  subject_id : string;
  first_pos : Z;
  mapping_qual : Z;
  cigar : string;
  query_seq : string
}.

Definition parse_sam_tab (tab : list string) : result sam_record :=
  query_id ← getitem tab 0;
  flag_str ← getitem tab 1;
  flag ← int flag_str;
  subject_id ← getitem tab 2;
  first_pos_str ← getitem tab 3;
  first_pos ← int first_pos_str;
  mapping_qual_str ← getitem tab 4;
  mapping_qual ← int mapping_qual_str;
  cigar ← getitem tab 5;
  rnext ← getitem tab 6;
  pnext ← getitem tab 7;
  tlen ← getitem tab 8;
  query_seq ← getitem tab 9;
  qual ← getitem tab 10;
  Ok (SamRecord query_id flag subject_id first_pos mapping_qual cigar (upper query_seq)).

(** ** The alignment walker *)

Record walk_state := WalkState {
  query_end : Z;
  subject_end : Z;
  indel_num : Z;
  matches_num : Z;
  mismatches_num : Z;
  overhang_num : Z
}.

(** [sum(query_seq[query_end + 1 + i] == subject_seq[subject_end + 1 + i]
    for i in xrange(i, i + n))]. *)
Fixpoint local_matches (query_seq subject_seq : string) (query_end subject_end : Z)
    (i : Z) (n : nat) : result Z :=
  match n with
  | O => Ok 0
  | S n' =>
      a ← getitem_str query_seq (query_end + 1 + i);
      b ← getitem_str subject_seq (subject_end + 1 + i);
      rest ← local_matches query_seq subject_seq query_end subject_end (i + 1) n';
      Ok ((if Ascii.eqb a b then 1 else 0) + rest)
  end.

(** The body of the loop over the CIGAR operations. *)
Definition walk_op (query_seq subject_seq : string) (st : walk_state)
    (op : ascii * Z) : result walk_state :=
  let '(operation, count) := op in
  if Ascii.eqb operation "M" then
    local_matches_num ←
      local_matches query_seq subject_seq (query_end st) (subject_end st) 0 (Z.to_nat count);
    Ok (WalkState (query_end st + count) (subject_end st + count) (indel_num st)
                  (matches_num st + local_matches_num)
                  (mismatches_num st + (count - local_matches_num))
                  (overhang_num st))
  else if Ascii.eqb operation "I" then
    Ok (WalkState (query_end st + count) (subject_end st) (indel_num st + count)
                  (matches_num st) (mismatches_num st) (overhang_num st))
  else if Ascii.eqb operation "D" then
    Ok (WalkState (query_end st) (subject_end st + count) (indel_num st + count)
                  (matches_num st) (mismatches_num st) (overhang_num st))
  else if Ascii.eqb operation "S" then
    Ok (WalkState (query_end st) (subject_end st) (indel_num st)
                  (matches_num st) (mismatches_num st) (overhang_num st + count))
  else Ok st.

(** The leading soft clip: the query start, the initial overhang and the
    operations left to walk. *)
Definition soft_clip (cigar_tab : list (ascii * Z)) : result (Z * Z * list (ascii * Z)) :=
  first ← getitem cigar_tab 0;
  if Ascii.eqb (fst first) "S" then Ok (snd first, snd first, tail cigar_tab)
  else Ok (0, 0, cigar_tab).

(** What the script knows of one record once its CIGAR is walked. *)
Record walk_result := WalkResult {
  w_query_length : Z;
  w_query_start : Z;
  w_subject_start : Z;
  w_final : walk_state
}.

Definition walk_from (query_seq subject_seq : string) (query_start subject_start overhang : Z)
    (cigar_tab : list (ascii * Z)) : result walk_state :=
  foldM (walk_op query_seq subject_seq)
        (WalkState (query_start - 1) (subject_start - 1) 0 0 0 overhang) cigar_tab.

Definition walk_record (refs : gmap string string) (r : sam_record) : result walk_result :=
  subject_seq ← getkey refs (subject_id r);
  let subject_start := first_pos r - 1 in
  let query_length := len (query_seq r) in
  cigar_tab ← parse_cigar (cigar r);
  clip ← soft_clip cigar_tab;
  let '(query_start, overhang, cigar_tab) := clip in
  st ← walk_from (query_seq r) subject_seq query_start subject_start overhang cigar_tab;
  Ok (WalkResult query_length query_start subject_start st).

(** ** The pass over the alignment records *)

Record totals := Totals {
  total_aligned_contigs_num : Z;
  total_aligned_contigs_length : Z;
  total_matches_num : Z;
  total_mismatches_num : Z;
  total_indel_num : Z;
  total_overhang_num : Z
}.

Definition zero_totals : totals := Totals 0 0 0 0 0 0.

Definition add_record (t : totals) (w : walk_result) : totals :=
  Totals (total_aligned_contigs_num t + 1)
         (total_aligned_contigs_length t + w_query_length w)
         (total_matches_num t + matches_num (w_final w))
         (total_mismatches_num t + mismatches_num (w_final w))
         (total_indel_num t + indel_num (w_final w))
         (total_overhang_num t + overhang_num (w_final w)).

Record run_state := RunState {
  previous_query_id : string;
  run_totals : totals;
  positions_count : gmap string (list Z)
}.

(** [for i in xrange(i, i + n): ref_positions_count[i] += 1]. *)
Fixpoint incr_range (ref_positions_count : list Z) (i : Z) (n : nat) : result (list Z) :=
  match n with
  | O => Ok ref_positions_count
  | S n' =>
      l ← incr_item ref_positions_count i;
      incr_range l (i + 1) n'
  end.

(** The body of the loop over the alignment records. The coverage list is
    the object held by the dictionary, so the dictionary sees the update. *)
Definition process_record (refs : gmap string string) (st : run_state) (r : sam_record)
  : result run_state :=
  w ← walk_record refs r;
  let t := if decide (query_id r = previous_query_id st) then run_totals st
           else add_record (run_totals st) w in
  ref_positions_count ← getkey (positions_count st) (subject_id r);
  l ← incr_range ref_positions_count (w_subject_start w)
        (Z.to_nat (subject_end (w_final w) + 1 - w_subject_start w));
  Ok (RunState (query_id r) t (<[subject_id r := l]> (positions_count st))).

Definition run_records (refs : gmap string string) (st : run_state) (rs : list sam_record)
  : result run_state :=
  foldM (process_record refs) st rs.

(** One line of the alignment file: blank lines are skipped. *)
Definition process_line (refs : gmap string string) (st : run_state) (l : string)
  : result run_state :=
  match strip l with
  | EmptyString => Ok st
  | _ => r ← parse_sam_tab (split l); process_record refs st r
  end.

Definition initial_state (cat : catalog) : run_state :=
  RunState EmptyString zero_totals (ref_positions_count_dict cat).

(** ** Final statistics *)

(** Python floats: binary64, that is precision 53 and exponents below
    1024. *)
Definition float : Type := spec_float.
Definition prec : Z := 53.
Definition emax : Z := 1024.

(** The conversion of an integer that meets a float: the nearest double. *)
Definition float_of_int (n : Z) : float := binary_normalize prec emax n 0 false.

(** The literals [0.0], [100.0] and [1000.0]. *)
Definition float_0 : float := S754_zero false.
Definition float_100 : float := S754_finite false 7036874417766400 (-46).
Definition float_1000 : float := S754_finite false 8796093022208000 (-43).

(** [n * x] for an integer [n] and a float [x]. *)
Definition int_times_float (n : Z) (x : float) : float :=
  SFmul prec emax (float_of_int n) x.

(** [x / n] for a float [x] and an integer [n]: a float division. *)
Definition fdiv (x : float) (n : Z) : result float :=
  if n =? 0 then Err ZeroDivisionError else Ok (SFdiv prec emax x (float_of_int n)).

(** The body of the loop over the positions of one reference. *)
Definition bucket_position (acc : Z * list Z) (pos_coverage : Z) : result (Z * list Z) :=
  let '(covered_positions_count, coverage_count_list) := acc in
  let covered := if 0 <? pos_coverage then covered_positions_count + 1
                 else covered_positions_count in
  l ← (if 10 <=? pos_coverage then incr_item coverage_count_list 10
       else incr_item coverage_count_list pos_coverage);
  Ok (covered, l).

(** The body of the loop over the reference ids. *)
Definition bucket_reference (counts : gmap string (list Z)) (acc : Z * list Z)
    (ref_id : string) : result (Z * list Z) :=
  let '(total_covered_positions_count, coverage_count_list) := acc in
  ref_positions_count ← getkey counts ref_id;
  res ← foldM bucket_position (0, coverage_count_list) ref_positions_count;
  Ok (total_covered_positions_count + fst res, snd res).

(** The body of the loop that fills the percentages. *)
Definition percent_step (coverage_count_list : list Z) (total_ref_length : Z)
    (acc : Z * list float) (i : Z) : result (Z * list float) :=
  let '(max_coverage, percent_coverage_list) := acc in
  coverage_count ← getitem coverage_count_list i;
  let max_coverage := if 0 <? coverage_count then i else max_coverage in
  coverage_percent ← fdiv (int_times_float coverage_count float_100) total_ref_length;
  Ok (max_coverage, <[Z.to_nat i := coverage_percent]> percent_coverage_list).

Record report := Report {
  rep_totals : totals;
  rep_total_ref_length : Z;
  rep_total_leven_distance : Z;
  rep_errors_num_per_kbp : float;
  rep_total_ref_coverage : float;
  rep_coverage_count_list : list Z;
  rep_max_coverage : Z;
  rep_percent_coverage_list : list float
}.

Definition final_stats (cat : catalog) (st : run_state) : result report :=
  let t := run_totals st in
  let total_leven_distance :=
    total_mismatches_num t + total_indel_num t + total_overhang_num t in
  errors_num_per_kbp ← fdiv (int_times_float total_leven_distance float_1000)
                          (total_aligned_contigs_length t);
  hist ← foldM (bucket_reference (positions_count st)) (0, replicate 11 0)
         (fst <$> map_to_list (ref_seq_dict cat));
  let '(total_covered_positions_count, coverage_count_list) := hist in
  pc ← foldM (percent_step coverage_count_list (total_ref_length cat))
        (0, replicate 11 float_0) (seqZ 0 11);
  let '(max_coverage, percent_coverage_list) := pc in
  total_ref_coverage ← fdiv (int_times_float total_covered_positions_count float_100)
                          (total_ref_length cat);
  Ok (Report t (total_ref_length cat) total_leven_distance errors_num_per_kbp
             total_ref_coverage coverage_count_list max_coverage percent_coverage_list).

(** ** The script *)

Definition main (references input_sam : list string) : result report :=
  records ← read_fasta_file_handle references;
  cat ← load_references records;
  st ← foldM (process_line (ref_seq_dict cat)) (initial_state cat) input_sam;
  final_stats cat st.


(** ** Notions used to state the properties *)

(** The shape the format asks of a CIGAR string: it starts with a digit
    and ends with an operator. *)
Definition starts_with_digit (s : string) : bool :=
  match s with
  | EmptyString => false
  | String c _ => isdigit c
  end.

Fixpoint has_digit (s : string) : bool :=
  match s with
  | EmptyString => false
  | String c s' => isdigit c || has_digit s'
  end.

Fixpoint ends_with_operator (s : string) : bool :=
  match s with
  | EmptyString => false
  | String c EmptyString => negb (isdigit c)
  | String _ s' => ends_with_operator s'
  end.

Definition cigar_malformed (s : string) : bool :=
  negb (starts_with_digit s) || negb (has_digit s) || negb (ends_with_operator s).

(** The operation list read off a run-length string: digits accumulate
    into a pending count, a character that is not a digit closes an
    operation with the pending count, or 1 when there is none. *)
Fixpoint cigar_ops (pending : option Z) (s : string) : list (ascii * Z) :=
  match s with
  | EmptyString => []
  | String c rest =>
      if isdigit c then cigar_ops (Some (default 0 pending * 10 + digit_value c)) rest
      else (c, default 1 pending) :: cigar_ops None rest
  end.

(** The pending count held by [count_str]. *)
Definition pending_of (count_str : string) : option Z :=
  match count_str with
  | EmptyString => None
  | _ => Some (digits_value 0 count_str)
  end.

(** Header lines of a sequence file. *)
Definition is_header (line : string) : bool :=
  match line with
  | String c _ => Ascii.eqb c ">"
  | EmptyString => false
  end.

Definition header_count (lines : list string) : nat :=
  length (filter (λ l, is_header l = true) lines).

(** A line as the file iterator gives it, with its newline. *)
Definition nl : string := String "010"%char EmptyString.
Definition text_line (s : string) : string := s +:+ nl.

(** The total length of the operations [o] of an operation list. *)
Fixpoint op_length (o : ascii) (tab : list (ascii * Z)) : Z :=
  match tab with
  | [] => 0
  | (o', n) :: tab' => (if Ascii.eqb o' o then n else 0) + op_length o tab'
  end.

(** The operation list once a leading soft clip is taken off. *)
Definition clipped (tab : list (ascii * Z)) : list (ascii * Z) :=
  match tab with
  | (o, _) :: rest => if Ascii.eqb o "S" then rest else tab
  | [] => []
  end.

(** [pairs] are the characters an [M] block compares: item [j] pairs the
    query character at [query_end + 1 + j] with the reference character
    at [subject_end + 1 + j]. *)
Definition compared_pairs (query_seq subject_seq : string) (query_end subject_end : Z)
    (pairs : list (ascii * ascii)) : Prop :=
  ∀ (j : nat) a b, pairs !! j = Some (a, b) →
    getitem_str query_seq (query_end + 1 + Z.of_nat j) = Ok a ∧
    getitem_str subject_seq (subject_end + 1 + Z.of_nat j) = Ok b.

Definition equal_pairs (pairs : list (ascii * ascii)) : Z :=
  Z.of_nat (length (filter (λ p, p.1 = p.2) pairs)).

Definition unequal_pairs (pairs : list (ascii * ascii)) : Z :=
  Z.of_nat (length (filter (λ p, p.1 ≠ p.2) pairs)).

(** The length of a leading soft clip, 0 when there is none. *)
Definition clip_length (tab : list (ascii * Z)) : Z :=
  match tab with
  | (o, n) :: _ => if Ascii.eqb o "S" then n else 0
  | [] => 0
  end.

(** The sum of an integer list. *)
Definition sum_Z (l : list Z) : Z := foldr Z.add 0 l.

(** The number of reference positions a record consumes: the [M] and [D]
    operations left after the leading soft clip. *)
Definition reference_span (r : sam_record) : Z :=
  op_length "M" (clipped (cigar_ops None (cigar r)))
  + op_length "D" (clipped (cigar_ops None (cigar r))).

(** A record that touches no position after the end of its reference. *)
Definition in_bounds (refs : gmap string string) (r : sam_record) : Prop :=
  ∃ subject_seq, refs !! subject_id r = Some subject_seq ∧
    (reference_span r = 0 ∨ first_pos r - 1 + reference_span r ≤ len subject_seq).

(** Each reference has a coverage list as long as its sequence. *)
Definition coverage_shape (refs : gmap string string) (counts : gmap string (list Z)) : Prop :=
  ∀ id subject_seq, refs !! id = Some subject_seq →
    ∃ cov, counts !! id = Some cov ∧ length cov = String.length subject_seq.

(** The two halves of [process_record]: what it does to the running
    totals, and what it does to the coverage lists. *)
Definition totals_step (refs : gmap string string) (acc : string * totals) (r : sam_record)
  : result (string * totals) :=
  w ← walk_record refs r;
  Ok (query_id r, if decide (query_id r = acc.1) then acc.2 else add_record acc.2 w).

Definition coverage_step (refs : gmap string string) (counts : gmap string (list Z))
    (r : sam_record) : result (gmap string (list Z)) :=
  w ← walk_record refs r;
  ref_positions_count ← getkey counts (subject_id r);
  l ← incr_range ref_positions_count (w_subject_start w)
        (Z.to_nat (subject_end (w_final w) + 1 - w_subject_start w));
  Ok (<[subject_id r := l]> counts).

(** The records whose query id differs from the one of the record just
    before; [prev] is the query id before the first record. *)
Fixpoint representatives (prev : string) (rs : list sam_record) : list sam_record :=
  match rs with
  | [] => []
  | r :: rs' =>
      (if decide (query_id r = prev) then [] else [r]) ++ representatives (query_id r) rs'
  end.

(** The maximal runs of consecutive records with the same query id. *)
Fixpoint query_groups (rs : list sam_record) : list (list sam_record) :=
  match rs with
  | [] => []
  | r :: rs' =>
      match query_groups rs' with
      | (r' :: g) :: gs =>
          if decide (query_id r = query_id r') then (r :: r' :: g) :: gs
          else [r] :: (r' :: g) :: gs
      | _ => [[r]]
      end
  end.

(** The query id seen last after the records [rs]. *)
Definition last_query_id (prev : string) (rs : list sam_record) : string :=
  match last rs with
  | Some r => query_id r
  | None => prev
  end.

(** The walk of a record, where it succeeds. *)
Definition walked (refs : gmap string string) (r : sam_record) (w : walk_result) : Prop :=
  walk_record refs r = Ok w.

(** The number of reference positions in the inclusive range
    [subject_start, subject_end] of a record. *)
Definition record_span (refs : gmap string string) (r : sam_record) : Z :=
  match walk_record refs r with
  | Ok w => subject_end (w_final w) - w_subject_start w + 1
  | Err _ => 0
  end.

(** The sum of the spans of the records mapped to the reference [id]. *)
Definition spans_on (refs : gmap string string) (id : string) (rs : list sam_record) : Z :=
  sum_Z (record_span refs <$> filter (λ r, subject_id r = id) rs).

(** The catalog key of a loaded pair: [header.split()[0]]. *)
Definition seqid_of (rec : string * string) : result string :=
  getitem (split rec.1) 0.

(** The total length of the sequences the catalog holds. *)
Definition catalog_length (refs : gmap string string) : Z :=
  sum_Z ((λ kv, len kv.2) <$> map_to_list refs).

(** The coverage lists of the catalog's references, in catalog order. *)
Definition coverage_lists (refs : gmap string string) (counts : gmap string (list Z))
  : list (list Z) :=
  omap (λ id, counts !! id) ((map_to_list refs).*1).

(** The histogram bucket of a depth: the depth itself up to 9, and 10 for
    any depth from 10 on. *)
Definition bucket_of (d : Z) : Z := if 10 <=? d then 10 else d.

(** The number of positions of the coverage lists that fall in bucket [i]. *)
Definition count_in_bucket (i : nat) (cov : list Z) : Z :=
  Z.of_nat (length (filter (λ d, bucket_of d = Z.of_nat i) cov)).

Definition positions_in_bucket (i : nat) (arrays : list (list Z)) : Z :=
  sum_Z (count_in_bucket i <$> arrays).

(** Every coverage count is a natural number. *)
Definition coverage_nonneg (counts : gmap string (list Z)) : Prop :=
  ∀ id cov, counts !! id = Some cov → Forall (λ c, 0 ≤ c) cov.

(** Every coverage count is still zero. *)
Definition coverage_zero (counts : gmap string (list Z)) : Prop :=
  ∀ id cov, counts !! id = Some cov → Forall (λ c, c = 0) cov.

(** The lines of the alignment file that are not blank. *)
Definition record_lines (lines : list string) : list string :=
  filter (λ l, strip l ≠ EmptyString) lines.

(** [r] is the record read from the line [l]. *)
Definition parsed (l : string) (r : sam_record) : Prop :=
  parse_sam_tab (split l) = Ok r.

(** ** Notions used to state the further properties *)

(** [str(n)] for an integer that is not negative: its decimal digits. *)
Definition digit_char (d : Z) : ascii := ascii_of_N (Z.to_N (48 + d)).

Fixpoint dec_digits (fuel : nat) (n : Z) (acc : string) : string :=
  match fuel with
  | O => acc
  | S fuel' =>
      let acc' := String (digit_char (n mod 10)) acc in
      if n <? 10 then acc' else dec_digits fuel' (n / 10) acc'
  end.

Definition str_of_int (n : Z) : string := dec_digits (S (Z.to_nat n)) n EmptyString.

(** The run-length string of an operation list: each count in decimal,
    followed by its operator. *)
Fixpoint render_cigar (tab : list (ascii * Z)) : string :=
  match tab with
  | [] => EmptyString
  | (o, n) :: tab' => str_of_int n +:+ String o (render_cigar tab')
  end.

(** The lines of a well-formed sequence file: for each record a header
    line, [">"] followed by the header text, then its sequence lines. *)
Fixpoint fasta_lines (recs : list (string * list string)) : list string :=
  match recs with
  | [] => []
  | (h, ls) :: recs' => String ">" h :: ls ++ fasta_lines recs'
  end.

(** A line of a file that is not a header line. *)
Definition sequence_line (l : string) : Prop :=
  l ≠ EmptyString ∧ is_header l = false.

(** The sequence of the last record of [records] whose catalog key is
    [id]. *)
Fixpoint last_with_id (id : string) (records : list (string * string)) : option string :=
  match records with
  | [] => None
  | rec :: rest =>
      match last_with_id id rest with
      | Some seq => Some seq
      | None =>
          match seqid_of rec with
          | Ok i => if decide (i = id) then Some rec.2 else None
          | Err _ => None
          end
      end
  end.

(** Strings made of white space only. *)
Fixpoint all_space (s : string) : bool :=
  match s with
  | EmptyString => true
  | String c s' => isspace c && all_space s'
  end.

(** The operators the walker knows. *)
Definition known_operator (o : ascii) : bool :=
  Ascii.eqb o "M" || Ascii.eqb o "I" || Ascii.eqb o "D" || Ascii.eqb o "S".

(** No total of [t'] is below the one of [t]. *)
Definition totals_le (t t' : totals) : Prop :=
  total_aligned_contigs_num t ≤ total_aligned_contigs_num t' ∧
  total_aligned_contigs_length t ≤ total_aligned_contigs_length t' ∧
  total_matches_num t ≤ total_matches_num t' ∧
  total_mismatches_num t ≤ total_mismatches_num t' ∧
  total_indel_num t ≤ total_indel_num t' ∧
  total_overhang_num t ≤ total_overhang_num t'.

(** The number of records of [rs] mapped to the reference [id] whose
    inclusive range [subject_start, subject_end] holds the position [p]. *)
Fixpoint depth_at (refs : gmap string string) (id : string) (p : nat)
    (rs : list sam_record) : Z :=
  match rs with
  | [] => 0
  | r :: rs' =>
      (match walk_record refs r with
       | Ok w =>
           if decide (subject_id r = id ∧
                      w_subject_start w ≤ Z.of_nat p ≤ subject_end (w_final w))
           then 1 else 0
       | Err _ => 0
       end) + depth_at refs id p rs'
  end.

(** The number of positions of the coverage lists with a depth of 1 or
    more. *)
Definition count_positive (cov : list Z) : Z :=
  Z.of_nat (length (filter (λ d, 0 < d) cov)).

Definition covered_positions (arrays : list (list Z)) : Z :=
  sum_Z (count_positive <$> arrays).

(** The number of distinct query ids of the records. *)
Definition distinct_query_ids (rs : list sam_record) : nat :=
  size (list_to_set (query_id <$> rs) : gset string).

(** Sample data: the reference and the records of the scenarios. *)
Definition sample_refs : gmap string string := {["R1" := "AAAAAAAAAA"]}.
Definition sample_counts : gmap string (list Z) := {["R1" := replicate 10 0]}.
Definition sample_record : sam_record :=
  SamRecord "q1" 0 "R1" 1 255 "3S7M" "CGTAAAAAAA".
Definition sample_tab : list (ascii * Z) := [("S"%char, 3); ("M"%char, 7)].
Definition sample_walk : walk_result :=
  WalkResult 10 3 0 (WalkState 9 6 0 7 0 3).
Definition sample_state : run_state := RunState "" zero_totals sample_counts.
Definition sample_record2 : sam_record :=
  SamRecord "q1" 0 "R1" 3 255 "2M1I1D2M2S" "AAAAAGG".
Definition sample_record3 : sam_record :=
  SamRecord "q2" 0 "R1" 2 255 "4M" "AAAT".
Definition sample_walk3 : walk_result :=
  WalkResult 4 0 1 (WalkState 3 4 0 3 1 0).
Definition sample_records : list sam_record :=
  [sample_record; sample_record2; sample_record3].
Definition sample_final : run_state :=
  RunState "q2" (Totals 2 14 10 1 0 3) {["R1" := [1; 2; 3; 3; 3; 2; 2; 0; 0; 0]]}.

Definition sample_state1 : run_state :=
  RunState "q1" (Totals 1 10 7 0 0 3) {["R1" := [1; 1; 1; 1; 1; 1; 1; 0; 0; 0]]}.
Definition sample_final_swapped : run_state :=
  RunState "q2" (Totals 2 11 7 1 2 2) {["R1" := [1; 2; 3; 3; 3; 2; 2; 0; 0; 0]]}.

(** The report of the run on [sample_record] alone: 300.0 errors per kbp,
    70.0 percent of the reference covered. *)
Definition sample_report : report :=
  Report (Totals 1 10 7 0 0 3) 10 3 (float_of_int 300) (float_of_int 70)
         [3; 7; 0; 0; 0; 0; 0; 0; 0; 0; 0] 1
         [float_of_int 30; float_of_int 70; float_0; float_0; float_0; float_0; float_0;
          float_0; float_0; float_0; float_0].

(** The report of a run with one matched base on a reference of three:
    one third of the reference is covered, and the percentages are the
    doubles 33.333333333333336 and 66.66666666666667. *)
Definition sample_report_third : report :=
  Report (Totals 1 1 1 0 0 0) 3 0 float_0 (S754_finite false 4691249611844267 (-47))
         [2; 1; 0; 0; 0; 0; 0; 0; 0; 0; 0] 1
         [S754_finite false 4691249611844267 (-46); S754_finite false 4691249611844267 (-47);
          float_0; float_0; float_0; float_0; float_0; float_0; float_0; float_0; float_0].

(** * Properties *)

(** ** The result monad *)

(** Reduce the binds whose first computation is a value or an exception. *)
Tactic Notation "run_bind" := cbn [mbind result_bind Py.bind].
Tactic Notation "run_bind" "in" hyp(H) := cbn [mbind result_bind Py.bind] in H.

Lemma bind_Ok {A B} (m : result A) (k : A → result B) (b : B) :
  (m ≫= k) = Ok b ↔ ∃ a, m = Ok a ∧ k a = Ok b.
Proof.
  destruct m as [a|e]; simpl; split.
  - eauto.
  - intros (a' & [= <-] & H). exact H.
  - discriminate.
  - intros (a' & [=] & _).
Qed.

(** ** Strings *)

Lemma isdigit_not_space c : isdigit c = true → isspace c = false.
Proof.
  unfold isdigit, isspace. intros [H1 H2]%andb_true_iff.
  apply N.leb_le in H1. apply N.leb_le in H2.
  apply orb_false_iff. split.
  - apply andb_false_iff. right. apply N.leb_gt. lia.
  - apply N.eqb_neq. lia.
Qed.

Lemma lstrip_digits s : all_digits s = true → lstrip s = s.
Proof.
  destruct s as [|c s]; simpl; [done|].
  intros [H _]%andb_true_iff. by rewrite (isdigit_not_space _ H).
Qed.

Lemma rstrip_digits s : all_digits s = true → rstrip s = s.
Proof.
  induction s as [|c s IH]; simpl; [done|].
  intros [H Hs]%andb_true_iff. rewrite (IH Hs).
  destruct s; [by rewrite (isdigit_not_space _ H)|done].
Qed.

Lemma int_digits s :
  all_digits s = true → s ≠ EmptyString → int s = Ok (digits_value 0 s).
Proof.
  intros Hd Hne. unfold int, strip. rewrite (rstrip_digits _ Hd), (lstrip_digits _ Hd).
  destruct s as [|c s]; [done|].
  assert (Hc : isdigit c = true) by (simpl in Hd; by apply andb_true_iff in Hd as [? _]).
  assert (Hu : int_unsigned (String c s) = Ok (digits_value 0 (String c s)))
    by (unfold int_unsigned; by rewrite Hd).
  clear Hd Hne. revert Hu Hc.
  destruct c as [[] [] [] [] [] [] [] []]; intros Hu Hc;
    solve [exact Hu | vm_compute in Hc; discriminate Hc].
Qed.

Lemma all_digits_snoc s c :
  all_digits s = true → isdigit c = true →
  all_digits (String.append s (String c EmptyString)) = true.
Proof.
  intros Hs Hc. induction s as [|a s IH]; simpl in *.
  - by rewrite Hc.
  - apply andb_true_iff in Hs as [Ha Hs]. rewrite Ha. simpl. by apply IH.
Qed.

Lemma digits_value_snoc acc s c :
  digits_value acc (String.append s (String c EmptyString))
  = digits_value acc s * 10 + digit_value c.
Proof. revert acc. induction s as [|a s IH]; intros acc; simpl; [done|apply IH]. Qed.

Lemma digits_value_nonneg acc s : 0 ≤ acc → all_digits s = true → 0 ≤ digits_value acc s.
Proof.
  revert acc. induction s as [|c s IH]; intros acc Hacc; simpl; [done|].
  intros [Hc Hs]%andb_true_iff. apply IH; [|done].
  unfold isdigit in Hc. apply andb_true_iff in Hc as [H1 _]. apply N.leb_le in H1.
  unfold digit_value. lia.
Qed.

(** ** The CIGAR parser *)

Lemma parse_cigar_loop_ops cigar count_str cigar_tab :
  all_digits count_str = true →
  parse_cigar_loop cigar count_str cigar_tab
  = Ok (cigar_tab ++ cigar_ops (pending_of count_str) cigar).
Proof.
  revert count_str cigar_tab.
  induction cigar as [|c rest IH]; intros count_str cigar_tab Hd; simpl.
  - by rewrite app_nil_r.
  - destruct (isdigit c) eqn:Hc.
    + rewrite IH by by apply all_digits_snoc. do 2 f_equal.
      assert (pending_of (String.append count_str (String c EmptyString))
              = Some (default 0 (pending_of count_str) * 10 + digit_value c)) as ->; [|done].
      destruct count_str as [|a t]; [done|].
      unfold pending_of at 2. simpl default. rewrite <- digits_value_snoc. done.
    + destruct count_str as [|a t].
      * simpl. rewrite IH by done. by rewrite <- app_assoc.
      * rewrite int_digits by done. simpl. rewrite IH by done. by rewrite <- app_assoc.
Qed.

Lemma parse_cigar_ops cigar : parse_cigar cigar = Ok (cigar_ops None cigar).
Proof. unfold parse_cigar. by rewrite parse_cigar_loop_ops. Qed.

Lemma cigar_ops_counts_nonneg pending cigar :
  (∀ n, pending = Some n → 0 ≤ n) →
  Forall (λ op, 0 ≤ op.2) (cigar_ops pending cigar).
Proof.
  revert pending. induction cigar as [|c rest IH]; intros pending Hp; simpl; [constructor|].
  destruct (isdigit c) eqn:Hc.
  - apply IH. intros n [= <-].
    assert (0 ≤ default 0 pending) by (destruct pending; simpl; [by apply Hp|done]).
    unfold isdigit in Hc. apply andb_true_iff in Hc as [H1 _]. apply N.leb_le in H1.
    unfold digit_value. lia.
  - constructor; [|by apply IH].
    destruct pending; simpl; [by apply Hp|done].
Qed.

(** C1, as stated, fails: strings of each malformed kind are parsed into an
    operation list. ["M"] has no digit at all and gets the count 1,
    ["M3S"] does not start with a digit, ["3M5"] does not end with an
    operator and loses its trailing digits. *)
Lemma parse_cigar_accepts_malformed :
  cigar_malformed "M" = true ∧ parse_cigar "M" = Ok [("M"%char, 1)] ∧
  cigar_malformed "M3S" = true ∧ parse_cigar "M3S" = Ok [("M"%char, 1); ("S"%char, 3)] ∧
  cigar_malformed "3M5" = true ∧ parse_cigar "3M5" = Ok [("M"%char, 3)].
Proof. repeat split; vm_compute; reflexivity. Qed.

(** C1, amended: [parse_cigar] never fails. Whatever the string, it returns
    one operation for each character that is not a digit, in order, whose
    count is the decimal value of the digits directly before it, or 1 when
    there are none; no operator of the list is a digit and no count is
    negative. *)
Theorem parse_cigar_total (cigar : string) :
  parse_cigar cigar = Ok (cigar_ops None cigar) ∧
  Forall (λ op, isdigit op.1 = false ∧ 0 ≤ op.2) (cigar_ops None cigar).
Proof.
  split.
  - unfold parse_cigar. rewrite parse_cigar_loop_ops by reflexivity. reflexivity.
  - assert (∀ pending, (∀ n, pending = Some n → 0 ≤ n) →
              Forall (λ op, isdigit op.1 = false ∧ 0 ≤ op.2) (cigar_ops pending cigar))
      as H; [|by apply H].
    induction cigar as [|c rest IH]; intros pending Hp; simpl; [constructor|].
    destruct (isdigit c) eqn:Hc.
    + apply IH. intros n [= <-].
      assert (0 ≤ default 0 pending) by (destruct pending; simpl; [by apply Hp|done]).
      pose proof (digits_value_nonneg 0 (String c EmptyString) ltac:(done)) as Hd.
      simpl in Hd. rewrite Hc in Hd. specialize (Hd eq_refl). lia.
    + constructor; [|by apply IH].
      split; [done|]. destruct pending; simpl; [by apply Hp|done].
Qed.

(** ** The sequence loader *)

Lemma getitem_str_first c s : getitem_str (String c s) 0 = Ok c.
Proof.
  unfold getitem_str, norm_index, len. simpl String.length.
  rewrite Nat2Z.inj_succ.
  assert ((0 <? Z.succ (Z.of_nat (String.length s))) = true) as -> by (apply Z.ltb_lt; lia).
  reflexivity.
Qed.

Lemma header_count_cons line lines :
  header_count (line :: lines)
  = if is_header line then S (header_count lines) else header_count lines.
Proof.
  unfold header_count. rewrite filter_cons.
  destruct (is_header line); [by rewrite decide_True|by rewrite decide_False].
Qed.

Lemma read_fasta_loop_total lines header seqlines sequence_nb :
  Forall (λ l, l ≠ EmptyString) lines → 0 ≤ sequence_nb →
  ∃ records, read_fasta_loop lines header seqlines sequence_nb = Ok records ∧
    length records
    = if decide (sequence_nb = 0) then Nat.max 1 (header_count lines)
      else S (header_count lines).
Proof.
  intros Hl. revert header seqlines sequence_nb.
  induction Hl as [|line rest Hne _ IH]; intros header seqlines nb Hnb.
  - eexists. split; [reflexivity|]. destruct (decide (nb = 0)); reflexivity.
  - destruct line as [|c t]; [done|].
    cbn [read_fasta_loop]. rewrite getitem_str_first. run_bind.
    rewrite header_count_cons. cbn [is_header].
    destruct (Ascii.eqb c ">") eqn:Hc.
    + destruct (nb =? 0) eqn:Hz.
      * apply Z.eqb_eq in Hz as ->.
        destruct (IH (rstrip (drop_first (String c t))) seqlines (0 + 1)) as (recs & -> & Hlen);
          [lia|].
        eexists. split; [reflexivity|]. rewrite Hlen.
        rewrite decide_False by lia. rewrite decide_True by done. lia.
      * apply Z.eqb_neq in Hz.
        destruct (IH (rstrip (drop_first (String c t))) [] (nb + 1)) as (recs & -> & Hlen);
          [lia|].
        eexists. split; [reflexivity|]. cbn [length]. rewrite Hlen.
        rewrite decide_False by lia. rewrite decide_False by done. lia.
    + destruct (IH header (seqlines ++ [strip (String c t)]) nb Hnb) as (recs & -> & Hlen).
      eexists. split; [reflexivity|]. exact Hlen.
Qed.

(** C9, as stated, fails: sequence lines before the first header raise no
    error. They are joined to the sequence of the first record; without
    any header line the loader yields one record with an empty header. *)
Lemma read_fasta_accepts_headerless_lines :
  read_fasta_file_handle [text_line "ACGT"; text_line ">R1 first"; text_line "TT"]
  = Ok [("R1 first", "ACGTTT")] ∧
  read_fasta_file_handle [text_line "ACGT"] = Ok [("", "ACGT")].
Proof. split; vm_compute; reflexivity. Qed.

(** C9, amended: the loader validates nothing and never fails on the lines
    of a file (none of which is empty), wherever the first header line is:
    it yields one record for each header line, and a single record when
    there is no header line. *)
Theorem read_fasta_never_fails (lines : list string) :
  Forall (λ l, l ≠ EmptyString) lines →
  ∃ records, read_fasta_file_handle lines = Ok records ∧
    length records = Nat.max 1 (header_count lines).
Proof.
  intros Hl. destruct (read_fasta_loop_total lines EmptyString [] 0 Hl) as (recs & H & Hlen);
    [done|].
  exists recs. split; [exact H|]. by rewrite decide_True in Hlen.
Qed.

Lemma read_fasta_never_fails_witness :
  ∃ records,
    read_fasta_file_handle [text_line "ACGT"; text_line ">R1 first"; text_line "TT"]
    = Ok records ∧ length records = 1%nat.
Proof.
  apply (read_fasta_never_fails [text_line "ACGT"; text_line ">R1 first"; text_line "TT"]).
  repeat constructor; discriminate.
Defined.

(** ** The alignment walker *)

Lemma parse_cigar_counts_nonneg cigar tab :
  parse_cigar cigar = Ok tab → Forall (λ op, 0 ≤ op.2) tab.
Proof.
  rewrite parse_cigar_ops. intros [= <-]. by apply cigar_ops_counts_nonneg.
Qed.

Lemma pairs_split (pairs : list (ascii * ascii)) :
  equal_pairs pairs + unequal_pairs pairs = Z.of_nat (length pairs).
Proof.
  unfold equal_pairs, unequal_pairs.
  induction pairs as [|[a b] pairs IH]; [done|].
  rewrite !filter_cons. simpl fst. simpl snd.
  destruct (decide (a = b)).
  - rewrite decide_False by tauto. simpl length. lia.
  - rewrite decide_True by done. simpl length. lia.
Qed.

Lemma local_matches_pairs q s qe se i n k :
  local_matches q s qe se i n = Ok k →
  ∃ pairs, length pairs = n ∧ compared_pairs q s (qe + i) (se + i) pairs ∧
    k = equal_pairs pairs.
Proof.
  revert i k. induction n as [|n IH]; intros i k; simpl.
  - intros [= <-]. exists []. split; [done|]. split; [|done]. intros j a b H. done.
  - intros (a & Ha & (b & Hb & (rest & Hrest & [= <-])%bind_Ok)%bind_Ok)%bind_Ok.
    destruct (IH _ _ Hrest) as (pairs & Hlen & Hcmp & ->).
    exists ((a, b) :: pairs). split; [simpl; by rewrite Hlen|]. split.
    + intros [|j] a' b' Hj.
      * injection Hj as <- <-.
        replace (qe + i + 1 + Z.of_nat 0) with (qe + 1 + i) by lia.
        replace (se + i + 1 + Z.of_nat 0) with (se + 1 + i) by lia. done.
      * simpl in Hj. destruct (Hcmp j a' b' Hj) as [H1 H2]. split.
        -- rewrite <- H1. f_equal. lia.
        -- rewrite <- H2. f_equal. lia.
    + unfold equal_pairs. rewrite filter_cons. simpl fst. simpl snd.
      destruct (Ascii.eqb_spec a b) as [->|Hne].
      * rewrite decide_True by done. simpl length. lia.
      * rewrite decide_False by done. lia.
Qed.

Lemma getitem_head {A} (x : A) (l : list A) : getitem (x :: l) 0 = Ok x.
Proof.
  unfold getitem, norm_index. simpl length. rewrite Nat2Z.inj_succ.
  assert ((0 <? Z.succ (Z.of_nat (length l))) = true) as -> by (apply Z.ltb_lt; lia).
  reflexivity.
Qed.

Lemma getitem_nil {A} (i : Z) : getitem (@nil A) i = Err IndexError.
Proof.
  unfold getitem, norm_index. change (Z.of_nat (length (@nil A))) with 0.
  destruct (Z.leb_spec 0 i), (Z.ltb_spec i 0), (Z.leb_spec (- 0) i); simpl; try done; lia.
Qed.

Lemma soft_clip_spec tab :
  soft_clip tab = match tab with
                  | [] => Err IndexError
                  | _ => Ok (clip_length tab, clip_length tab, clipped tab)
                  end.
Proof.
  destruct tab as [|[o n] rest]; unfold soft_clip.
  - by rewrite getitem_nil.
  - rewrite getitem_head. simpl. by destruct (Ascii.eqb o "S").
Qed.

Lemma walk_op_effect q s st o n st' :
  walk_op q s st (o, n) = Ok st' →
  query_end st' = query_end st + op_length "M" [(o, n)] + op_length "I" [(o, n)] ∧
  subject_end st' = subject_end st + op_length "M" [(o, n)] + op_length "D" [(o, n)] ∧
  indel_num st' = indel_num st + op_length "I" [(o, n)] + op_length "D" [(o, n)] ∧
  matches_num st' + mismatches_num st'
    = matches_num st + mismatches_num st + op_length "M" [(o, n)] ∧
  overhang_num st' = overhang_num st + op_length "S" [(o, n)].
Proof.
  unfold walk_op. simpl op_length.
  destruct (Ascii.eqb_spec o "M") as [->|HM].
  { intros (k & _ & [= <-])%bind_Ok. simpl. lia. }
  destruct (Ascii.eqb_spec o "I") as [->|HI].
  { intros [= <-]. simpl. lia. }
  destruct (Ascii.eqb_spec o "D") as [->|HD].
  { intros [= <-]. simpl. lia. }
  destruct (Ascii.eqb_spec o "S") as [->|HS].
  { intros [= <-]. simpl. lia. }
  intros [= <-]. lia.
Qed.

Lemma op_length_cons o op tab : op_length o (op :: tab) = op_length o [op] + op_length o tab.
Proof. destruct op as [o' n]. simpl. lia. Qed.

Lemma walk_fold_effect q s st tab st' :
  foldM (walk_op q s) st tab = Ok st' →
  query_end st' = query_end st + op_length "M" tab + op_length "I" tab ∧
  subject_end st' = subject_end st + op_length "M" tab + op_length "D" tab ∧
  indel_num st' = indel_num st + op_length "I" tab + op_length "D" tab ∧
  matches_num st' + mismatches_num st'
    = matches_num st + mismatches_num st + op_length "M" tab ∧
  overhang_num st' = overhang_num st + op_length "S" tab.
Proof.
  revert st. induction tab as [|[o n] tab IH]; intros st.
  - intros [= <-]. simpl. lia.
  - simpl foldM. intros (st1 & H1 & H2)%bind_Ok.
    apply walk_op_effect in H1. apply IH in H2.
    rewrite !(op_length_cons _ (o, n) tab). lia.
Qed.

Lemma walk_record_Ok refs r w :
  walk_record refs r = Ok w →
  ∃ subject_seq,
    refs !! subject_id r = Some subject_seq ∧
    cigar_ops None (cigar r) ≠ [] ∧
    w_query_length w = len (query_seq r) ∧
    w_query_start w = clip_length (cigar_ops None (cigar r)) ∧
    w_subject_start w = first_pos r - 1 ∧
    walk_from (query_seq r) subject_seq (clip_length (cigar_ops None (cigar r)))
      (first_pos r - 1) (clip_length (cigar_ops None (cigar r)))
      (clipped (cigar_ops None (cigar r))) = Ok (w_final w).
Proof.
  unfold walk_record, getkey.
  destruct (refs !! subject_id r) as [subject_seq|]; [|done].
  run_bind. rewrite parse_cigar_ops.
  run_bind. rewrite soft_clip_spec.
  destruct (cigar_ops None (cigar r)) as [|op tab] eqn:Htab; [done|].
  run_bind. intros (st & Hst & [= <-])%bind_Ok.
  exists subject_seq. simpl. done.
Qed.



(** C7: when the first operation is a soft clip of length [n], the query
    start and the overhang both start at [n] and the walk runs over the
    remaining operations only. Any other soft clip adds its length to the
    overhang and moves neither cursor, so the cursors end where the [M],
    [I] and [D] operations alone put them and the query start stays [n]. *)
Theorem soft_clip_accounting :
  (∀ refs r w n rest,
     walk_record refs r = Ok w →
     parse_cigar (cigar r) = Ok (("S"%char, n) :: rest) →
     w_query_start w = n ∧
     overhang_num (w_final w) = n + op_length "S" rest ∧
     (∃ subject_seq,
        refs !! subject_id r = Some subject_seq ∧
        walk_from (query_seq r) subject_seq n (first_pos r - 1) n rest = Ok (w_final w)) ∧
     query_end (w_final w) = n - 1 + op_length "M" rest + op_length "I" rest ∧
     subject_end (w_final w)
       = first_pos r - 1 - 1 + op_length "M" rest + op_length "D" rest) ∧
  (∀ query_seq subject_seq st n,
     walk_op query_seq subject_seq st ("S"%char, n)
     = Ok (WalkState (query_end st) (subject_end st) (indel_num st) (matches_num st)
                     (mismatches_num st) (overhang_num st + n))) ∧
  (∀ refs r w o n rest,
     walk_record refs r = Ok w →
     parse_cigar (cigar r) = Ok ((o, n) :: rest) → o ≠ "S"%char →
     w_query_start w = 0 ∧
     overhang_num (w_final w) = op_length "S" ((o, n) :: rest)).
Proof.
  split; [|split].
  - intros refs r w n rest Hw. rewrite parse_cigar_ops. intros [= Htab].
    apply walk_record_Ok in Hw as (subject_seq & Href & _ & _ & Hqs & _ & Hwalk).
    rewrite Htab in Hqs, Hwalk. simpl in Hqs, Hwalk.
    pose proof (walk_fold_effect _ _ _ _ _ Hwalk) as (H1 & H2 & _ & _ & H5).
    simpl in H1, H2, H5. split; [done|]. split; [done|].
    split; [by exists subject_seq|]. split; [done|done].
  - intros q s st n. reflexivity.
  - intros refs r w o n rest Hw. rewrite parse_cigar_ops. intros [= Htab] Ho.
    apply walk_record_Ok in Hw as (subject_seq & Href & _ & _ & Hqs & _ & Hwalk).
    rewrite Htab in Hqs, Hwalk. simpl in Hqs, Hwalk.
    destruct (Ascii.eqb_spec o "S") as [->|_]; [done|].
    apply walk_fold_effect in Hwalk as (_ & _ & _ & _ & H5).
    simpl in H5. split; [done|]. rewrite H5. simpl.
    destruct (Ascii.eqb o "S"); lia.
Qed.

Lemma soft_clip_accounting_witness :
  (w_query_start sample_walk = 3 ∧
   overhang_num (w_final sample_walk) = 3 + op_length "S" [("M"%char, 7)]) ∧
  (w_query_start sample_walk3 = 0 ∧
   overhang_num (w_final sample_walk3) = op_length "S" [("M"%char, 4)]).
Proof.
  split.
  - destruct (proj1 soft_clip_accounting sample_refs sample_record sample_walk 3
                [("M"%char, 7)]) as (H1 & H2 & _);
      [vm_compute; reflexivity|vm_compute; reflexivity|].
    split; [exact H1|exact H2].
  - apply (proj2 (proj2 soft_clip_accounting) sample_refs sample_record3 sample_walk3
             "M"%char 4 []).
    + vm_compute. reflexivity.
    + vm_compute. reflexivity.
    + discriminate.
Defined.

(** ** Subscripts and increments *)

Lemma norm_index_Ok n i k :
  norm_index n i = Ok k →
  Z.of_nat k < n ∧ - n ≤ i < n ∧ (0 ≤ i → Z.of_nat k = i) ∧ (i < 0 → Z.of_nat k = n + i).
Proof.
  unfold norm_index.
  destruct (Z.leb_spec 0 i), (Z.ltb_spec i n), (Z.leb_spec (- n) i), (Z.ltb_spec i 0);
    simpl; intros [= <-]; lia.
Qed.

Lemma norm_index_Err n i e : norm_index n i = Err e → e = IndexError ∧ (i < - n ∨ n ≤ i).
Proof.
  unfold norm_index.
  destruct (Z.leb_spec 0 i), (Z.ltb_spec i n), (Z.leb_spec (- n) i), (Z.ltb_spec i 0);
    simpl; intros [= <-]; split; try done; lia.
Qed.

Lemma incr_item_Ok l i l' :
  incr_item l i = Ok l' ↔
  ∃ k a, norm_index (Z.of_nat (length l)) i = Ok k ∧ l !! k = Some a ∧ l' = <[k := a + 1]> l.
Proof.
  unfold incr_item. split.
  - intros (k & Hk & H)%bind_Ok. destruct (l !! k) as [a|] eqn:Ha; [|done].
    injection H as <-. by exists k, a.
  - intros (k & a & Hk & Ha & ->). apply bind_Ok. exists k. by rewrite Ha.
Qed.

Lemma incr_item_Err l i e :
  incr_item l i = Err e → e = IndexError ∧ (i < - Z.of_nat (length l) ∨ Z.of_nat (length l) ≤ i).
Proof.
  unfold incr_item. destruct (norm_index _ i) as [k|e'] eqn:Hk; simpl.
  - apply norm_index_Ok in Hk as (Hk & _).
    destruct (lookup_lt_is_Some_2 l k) as [a ->]; [lia|done].
  - intros [= <-]. by apply norm_index_Err in Hk.
Qed.

Lemma incr_item_length l i l' : incr_item l i = Ok l' → length l' = length l.
Proof. intros (k & a & _ & _ & ->)%incr_item_Ok. apply length_insert. Qed.

Lemma sum_Z_insert (l : list Z) k a b :
  l !! k = Some a → sum_Z (<[k := b]> l) = sum_Z l - a + b.
Proof.
  revert k. induction l as [|x l IH]; intros [|k]; simpl; try done.
  - intros [= ->]. lia.
  - intros H. rewrite (IH _ H). lia.
Qed.

Lemma incr_item_sum l i l' : incr_item l i = Ok l' → sum_Z l' = sum_Z l + 1.
Proof.
  intros (k & a & _ & Ha & ->)%incr_item_Ok. rewrite (sum_Z_insert _ _ _ _ Ha). lia.
Qed.

Lemma incr_item_nonneg l i l' :
  incr_item l i = Ok l' → Forall (λ c, 0 ≤ c) l → Forall (λ c, 0 ≤ c) l'.
Proof.
  intros (k & a & _ & Ha & ->)%incr_item_Ok Hl.
  apply Forall_insert; [done|].
  rewrite Forall_lookup in Hl. specialize (Hl _ _ Ha). simpl in Hl. lia.
Qed.

(** On a position that is not negative, the increment is at that position. *)
Lemma incr_item_lookup l i l' (p : nat) c :
  incr_item l i = Ok l' → 0 ≤ i → l !! p = Some c →
  l' !! p = Some (if decide (Z.of_nat p = i) then c + 1 else c).
Proof.
  intros (k & a & Hk & Ha & ->)%incr_item_Ok Hi Hp.
  apply norm_index_Ok in Hk as (Hlt & _ & Hk & _). specialize (Hk Hi).
  destruct (decide (Z.of_nat p = i)) as [Heq|Hne].
  - assert (k = p) as -> by lia. rewrite list_lookup_insert_eq by lia.
    rewrite Ha in Hp. by injection Hp as ->.
  - rewrite list_lookup_insert_ne by lia. done.
Qed.

Lemma incr_item_comm l i j l1 l2 :
  incr_item l i = Ok l1 → incr_item l1 j = Ok l2 →
  ∃ l1', incr_item l j = Ok l1' ∧ incr_item l1' i = Ok l2.
Proof.
  intros (k & a & Hk & Ha & ->)%incr_item_Ok (k' & b & Hk' & Hb & ->)%incr_item_Ok.
  rewrite length_insert in Hk'.
  pose proof (norm_index_Ok _ _ _ Hk) as (Hlt & _).
  pose proof (norm_index_Ok _ _ _ Hk') as (Hlt' & _).
  destruct (decide (k = k')) as [<-|Hne].
  - rewrite list_lookup_insert_eq in Hb by lia. injection Hb as <-.
    exists (<[k := a + 1]> l). split.
    + apply incr_item_Ok. by exists k, a.
    + apply incr_item_Ok. exists k, (a + 1). rewrite length_insert.
      split; [done|]. split; [by rewrite list_lookup_insert_eq by lia|done].
  - rewrite list_lookup_insert_ne in Hb by done.
    exists (<[k' := b + 1]> l). split.
    + apply incr_item_Ok. by exists k', b.
    + apply incr_item_Ok. exists k, a. rewrite length_insert.
      split; [done|]. split; [by rewrite list_lookup_insert_ne by done|].
      by rewrite list_insert_insert_ne by done.
Qed.

Lemma incr_range_length l i n l' : incr_range l i n = Ok l' → length l' = length l.
Proof.
  revert l i. induction n as [|n IH]; intros l i; simpl.
  - by intros [= <-].
  - intros (l1 & H1 & H2)%bind_Ok. rewrite (IH _ _ H2). by eapply incr_item_length.
Qed.

Lemma incr_range_sum l i n l' : incr_range l i n = Ok l' → sum_Z l' = sum_Z l + Z.of_nat n.
Proof.
  revert l i. induction n as [|n IH]; intros l i; simpl incr_range.
  - intros [= <-]. simpl. lia.
  - intros (l1 & H1 & H2)%bind_Ok. rewrite (IH _ _ H2), (incr_item_sum _ _ _ H1). lia.
Qed.

Lemma incr_range_nonneg l i n l' :
  incr_range l i n = Ok l' → Forall (λ c, 0 ≤ c) l → Forall (λ c, 0 ≤ c) l'.
Proof.
  revert l i. induction n as [|n IH]; intros l i; simpl.
  - by intros [= <-].
  - intros (l1 & H1 & H2)%bind_Ok Hl. eapply IH; [done|]. by eapply incr_item_nonneg.
Qed.

Lemma incr_range_lookup l i n l' (p : nat) c :
  incr_range l i n = Ok l' → 0 ≤ i → l !! p = Some c →
  l' !! p = Some (if decide (i ≤ Z.of_nat p < i + Z.of_nat n) then c + 1 else c).
Proof.
  revert l i c. induction n as [|n IH]; intros l i c; simpl incr_range.
  - intros [= <-] _ Hp. rewrite decide_False by lia. done.
  - intros (l1 & H1 & H2)%bind_Ok Hi Hp.
    pose proof (incr_item_lookup _ _ _ _ _ H1 Hi Hp) as Hp1.
    rewrite (IH _ _ _ H2 ltac:(lia) Hp1).
    f_equal. repeat case_decide; lia.
Qed.

Lemma incr_range_Err l i n e : incr_range l i n = Err e → e = IndexError.
Proof.
  revert l i. induction n as [|n IH]; intros l i; simpl; [done|].
  destruct (incr_item l i) as [l1|e1] eqn:H1; simpl.
  - apply IH.
  - intros [= <-]. by apply incr_item_Err in H1 as [-> _].
Qed.

(** A range that reaches a position after the last one cannot be walked. *)
Lemma incr_range_overrun l i n :
  (0 < n)%nat → Z.of_nat (length l) < i + Z.of_nat n →
  incr_range l i n = Err IndexError.
Proof.
  revert l i. induction n as [|n IH]; intros l i Hn Hover; [lia|].
  simpl. destruct (incr_item l i) as [l1|e1] eqn:H1; simpl.
  - destruct n as [|n].
    + apply incr_item_Ok in H1 as (k & a & Hk & _). apply norm_index_Ok in Hk. lia.
    + apply IH; [lia|]. rewrite (incr_item_length _ _ _ H1). lia.
  - by apply incr_item_Err in H1 as [-> _].
Qed.

Lemma incr_item_range_comm l i j n l1 l2 :
  incr_item l i = Ok l1 → incr_range l1 j n = Ok l2 →
  ∃ l1', incr_range l j n = Ok l1' ∧ incr_item l1' i = Ok l2.
Proof.
  revert l l1 j. induction n as [|n IH]; intros l l1 j Hi; simpl.
  - intros [= <-]. by exists l.
  - intros (l3 & H3 & Hrest)%bind_Ok.
    destruct (incr_item_comm _ _ _ _ _ Hi H3) as (l4 & H4 & H5).
    destruct (IH _ _ _ H5 Hrest) as (l6 & H6 & H7).
    exists l6. split; [|done]. rewrite H4. done.
Qed.

Lemma incr_range_comm l i n j m l1 l2 :
  incr_range l i n = Ok l1 → incr_range l1 j m = Ok l2 →
  ∃ l1', incr_range l j m = Ok l1' ∧ incr_range l1' i n = Ok l2.
Proof.
  revert l l1 l2 i. induction n as [|n IH]; intros l l1 l2 i; simpl.
  - intros [= <-] H. by exists l2.
  - intros (l3 & H3 & Hrest)%bind_Ok Hj.
    destruct (IH _ _ _ _ Hrest Hj) as (l4 & H4 & H5).
    destruct (incr_item_range_comm _ _ _ _ _ _ H3 H4) as (l6 & H6 & H7).
    exists l6. split; [done|]. rewrite H7. done.
Qed.

(** ** One alignment record *)

Lemma foldM_Err {A B} (P : exn → Prop) (f : A → B → result A) a l e :
  (∀ a b e, f a b = Err e → P e) → foldM f a l = Err e → P e.
Proof.
  intros Hf. revert a. induction l as [|b l IH]; intros a; simpl; [done|].
  destruct (f a b) as [a'|e'] eqn:H; simpl.
  - apply IH.
  - intros [= <-]. by eapply Hf.
Qed.

Lemma getitem_str_Err s i e : getitem_str s i = Err e → e = IndexError.
Proof.
  unfold getitem_str. destruct (norm_index (len s) i) as [k|e'] eqn:Hk; simpl.
  - destruct (String.get k s); [done|]. by intros [= <-].
  - intros [= <-]. by apply norm_index_Err in Hk as [-> _].
Qed.

Lemma local_matches_Err q s qe se i n e :
  local_matches q s qe se i n = Err e → e = IndexError.
Proof.
  revert i. induction n as [|n IH]; intros i; simpl; [done|].
  destruct (getitem_str q _) as [a|e1] eqn:Ha; simpl;
    [|intros [= <-]; by eapply getitem_str_Err].
  destruct (getitem_str s _) as [b|e2] eqn:Hb; simpl;
    [|intros [= <-]; by eapply getitem_str_Err].
  destruct (local_matches q s qe se (i + 1) n) as [k|e3] eqn:Hk; simpl; [done|].
  intros [= <-]. by eapply IH.
Qed.

Lemma walk_op_Err q s st op e : walk_op q s st op = Err e → e = IndexError.
Proof.
  destruct op as [o n]. unfold walk_op.
  destruct (Ascii.eqb o "M").
  - destruct (local_matches _ _ _ _ _ _) as [k|e1] eqn:Hk; simpl; [done|].
    intros [= <-]. by eapply local_matches_Err.
  - by repeat case_match.
Qed.

Lemma walk_record_Err refs r e :
  is_Some (refs !! subject_id r) → walk_record refs r = Err e → e = IndexError.
Proof.
  intros [subject_seq Href]. unfold walk_record, getkey. rewrite Href.
  run_bind. rewrite parse_cigar_ops.
  run_bind. rewrite soft_clip_spec.
  destruct (cigar_ops None (cigar r)) as [|op tab]; [by intros [= <-]|].
  run_bind.
  destruct (walk_from _ _ _ _ _ _) as [st|e1] eqn:Hw; simpl; [done|].
  intros [= <-]. unfold walk_from in Hw.
  eapply (foldM_Err (λ e, e = IndexError)); [|exact Hw].
  intros a b e0. apply walk_op_Err.
Qed.

Lemma walk_record_span refs r w :
  walk_record refs r = Ok w →
  subject_end (w_final w) + 1 - w_subject_start w = reference_span r ∧
  w_subject_start w = first_pos r - 1.
Proof.
  intros (subject_seq & _ & _ & _ & _ & Hs & Hwalk)%walk_record_Ok.
  apply walk_fold_effect in Hwalk as (_ & H2 & _). simpl in H2.
  unfold reference_span. lia.
Qed.

Lemma op_length_nonneg o tab : Forall (λ op, 0 ≤ op.2) tab → 0 ≤ op_length o tab.
Proof.
  induction 1 as [|[o' n] tab Hn _ IH]; simpl; [done|].
  simpl in Hn. destruct (Ascii.eqb o' o); lia.
Qed.

Lemma clipped_nonneg tab : Forall (λ op, 0 ≤ op.2) tab → Forall (λ op, 0 ≤ op.2) (clipped tab).
Proof.
  intros H. destruct H as [|[o n] tab Hn Htab]; simpl; [constructor|].
  destruct (Ascii.eqb o "S"); [done|by constructor].
Qed.

Lemma reference_span_nonneg r : 0 ≤ reference_span r.
Proof.
  unfold reference_span.
  assert (Forall (λ op, 0 ≤ op.2) (clipped (cigar_ops None (cigar r)))) as H
    by (apply clipped_nonneg, cigar_ops_counts_nonneg; done).
  pose proof (op_length_nonneg "M" _ H). pose proof (op_length_nonneg "D" _ H). lia.
Qed.

Lemma process_record_Ok refs st r st' :
  process_record refs st r = Ok st' ↔
  ∃ w cov cov',
    walk_record refs r = Ok w ∧
    positions_count st !! subject_id r = Some cov ∧
    incr_range cov (w_subject_start w)
      (Z.to_nat (subject_end (w_final w) + 1 - w_subject_start w)) = Ok cov' ∧
    st' = RunState (query_id r)
            (if decide (query_id r = previous_query_id st) then run_totals st
             else add_record (run_totals st) w)
            (<[subject_id r := cov']> (positions_count st)).
Proof.
  unfold process_record, getkey. split.
  - intros (w & Hw & H)%bind_Ok.
    destruct (positions_count st !! subject_id r) as [cov|]; [|done].
    run_bind in H.
    apply bind_Ok in H as (cov' & Hcov & [= <-]).
    by exists w, cov, cov'.
  - intros (w & cov & cov' & -> & -> & Hcov & ->).
    run_bind. by rewrite Hcov.
Qed.

Lemma process_record_shape refs st r st' :
  process_record refs st r = Ok st' →
  coverage_shape refs (positions_count st) → coverage_shape refs (positions_count st').
Proof.
  intros (w & cov & cov' & _ & Hc & Hincr & ->)%process_record_Ok Hshape id seq Hid.
  simpl. destruct (Hshape id seq Hid) as (c & Hl & Hlen).
  destruct (decide (subject_id r = id)) as [<-|Hne].
  - rewrite lookup_insert_eq. exists cov'. split; [done|].
    rewrite (incr_range_length _ _ _ _ Hincr). congruence.
  - rewrite lookup_insert_ne by done. by exists c.
Qed.

Lemma process_record_in_bounds refs st r st' :
  coverage_shape refs (positions_count st) →
  process_record refs st r = Ok st' → in_bounds refs r.
Proof.
  intros Hshape (w & cov & cov' & Hw & Hc & Hincr & _)%process_record_Ok.
  pose proof (walk_record_span _ _ _ Hw) as [Hspan Hstart].
  apply walk_record_Ok in Hw as (subject_seq & Href & _).
  exists subject_seq. split; [done|].
  destruct (Hshape _ _ Href) as (c & Hc' & Hlen). rewrite Hc in Hc'. injection Hc' as <-.
  rewrite Hspan, Hstart in Hincr. pose proof (reference_span_nonneg r).
  destruct (decide (reference_span r = 0)) as [|Hpos]; [by left|right].
  destruct (decide (first_pos r - 1 + reference_span r ≤ len subject_seq)) as [|Hover];
    [done|].
  rewrite incr_range_overrun in Hincr; [done|lia|]. unfold len in Hover. lia.
Qed.

(** C10, as stated, fails: a record placed after the end of its reference
    whose CIGAR consumes no reference base (here two inserted bases at
    position 6 of a reference of length 4) is walked without any
    subscript, and the run completes. *)
Lemma walk_past_end_without_reference_base :
  parse_sam_tab (split (text_line "q1 0 R1 6 255 2I * 0 0 AA *"))
  = Ok (SamRecord "q1" 0 "R1" 6 255 "2I" "AA") ∧
  first_pos (SamRecord "q1" 0 "R1" 6 255 "2I" "AA") - 1
  + reference_span (SamRecord "q1" 0 "R1" 6 255 "2I" "AA") > len "ACGT" ∧
  succeeds (main [text_line ">R1"; text_line "ACGT"]
                 [text_line "q1 0 R1 6 255 2I * 0 0 AA *"]).
Proof.
  split; [vm_compute; reflexivity|]. split; [vm_compute; reflexivity|].
  eexists. vm_compute. reflexivity.
Qed.

(** C10, amended: the walker checks no bound. A record that consumes at
    least one reference base (the [M] and [D] operations left after the
    leading soft clip) and whose start plus that length exceeds the length
    of the matched reference aborts the run with an index error, raised by
    the comparison of an [M] block or by the coverage increment. Hence in a
    run that completes every record either consumes no reference base or
    ends within its reference. *)
Theorem overrun_aborts :
  (∀ refs st r subject_seq cov,
     refs !! subject_id r = Some subject_seq →
     positions_count st !! subject_id r = Some cov →
     length cov = String.length subject_seq →
     0 < reference_span r →
     len subject_seq < first_pos r - 1 + reference_span r →
     process_record refs st r = Err IndexError) ∧
  (∀ refs st rs st',
     coverage_shape refs (positions_count st) →
     run_records refs st rs = Ok st' → Forall (in_bounds refs) rs).
Proof.
  split.
  - intros refs st r subject_seq cov Href Hcov Hlen Hpos Hover.
    unfold process_record.
    destruct (walk_record refs r) as [w|e] eqn:Hw.
    + run_bind. unfold getkey. rewrite Hcov.
      run_bind.
      destruct (walk_record_span _ _ _ Hw) as [-> ->].
      rewrite incr_range_overrun; [done|lia|]. unfold len in Hover. lia.
    + apply walk_record_Err in Hw as ->; [done|by eexists].
  - intros refs st rs. revert st. induction rs as [|r rs IH]; intros st st' Hshape.
    + constructor.
    + unfold run_records. simpl. intros (st1 & H1 & Hrest)%bind_Ok. constructor.
      * by eapply process_record_in_bounds.
      * eapply IH; [|exact Hrest]. by eapply process_record_shape.
Qed.

Lemma overrun_aborts_witness :
  process_record sample_refs sample_state (SamRecord "q1" 0 "R1" 9 255 "3M" "AAA")
  = Err IndexError ∧
  Forall (in_bounds sample_refs) sample_records.
Proof.
  split.
  - apply (proj1 overrun_aborts sample_refs sample_state
             (SamRecord "q1" 0 "R1" 9 255 "3M" "AAA") "AAAAAAAAAA" (replicate 10 0));
      vm_compute; reflexivity.
  - apply (proj2 overrun_aborts sample_refs sample_state sample_records sample_final).
    + intros id subject_seq Hid. unfold sample_refs in Hid.
      apply lookup_singleton_Some in Hid as [<- <-].
      exists (replicate 10 0). split; reflexivity.
    + vm_compute. reflexivity.
Defined.

(** ** Alignment lines *)

Lemma split_tokens_nonempty s : Forall (λ t, t ≠ EmptyString) (split s).
Proof.
  induction s as [|c s IH]; simpl; [constructor|].
  destruct (isspace c); [done|].
  destruct s as [|c' s']; [by repeat constructor|].
  destruct (isspace c'); [by constructor|].
  destruct (split (String c' s')) as [|t ts]; [by repeat constructor|].
  inv IH. by constructor.
Qed.

Lemma getitem_elem_of {A} (l : list A) i x : getitem l i = Ok x → x ∈ l.
Proof.
  unfold getitem. intros (k & _ & H)%bind_Ok.
  destruct (l !! k) as [a|] eqn:Hk; [|done]. injection H as <-.
  by eapply list_elem_of_lookup_2.
Qed.

(** A query id is a token of the line, so it is never the empty string
    the script starts with as previous id. *)
Lemma parse_sam_tab_query_id l r :
  parse_sam_tab (split l) = Ok r → query_id r ≠ EmptyString.
Proof.
  unfold parse_sam_tab. intros (q & Hq & H)%bind_Ok.
  assert (query_id r = q) as ->.
  { repeat (apply bind_Ok in H as (? & _ & H)). by injection H as <-. }
  apply getitem_elem_of in Hq.
  pose proof (split_tokens_nonempty l) as Hall. rewrite Forall_forall in Hall.
  by apply Hall.
Qed.

(** The lines of the alignment file are processed as the records they hold. *)
Lemma run_lines_records refs st lines st' :
  foldM (process_line refs) st lines = Ok st' →
  ∃ rs, Forall2 parsed (record_lines lines) rs ∧ run_records refs st rs = Ok st'.
Proof.
  unfold run_records, record_lines. revert st.
  induction lines as [|l lines IH]; intros st; simpl foldM.
  - intros [= <-]. exists []. split; [constructor|done].
  - intros (st1 & H1 & Hrest)%bind_Ok. destruct (IH _ Hrest) as (rs & Hall & Hrs).
    rewrite filter_cons. unfold process_line in H1. destruct (strip l) eqn:Hl.
    + injection H1 as <-. rewrite decide_False by (intros H; by apply H).
      by exists rs.
    + apply bind_Ok in H1 as (r & Hr & Hr'). rewrite decide_True by done.
      exists (r :: rs). split; [by constructor|]. simpl. by rewrite Hr'.
Qed.

(** ** The pass: totals and coverage evolve independently *)

Lemma totals_step_Ok refs acc r acc' :
  totals_step refs acc r = Ok acc' ↔
  ∃ w, walk_record refs r = Ok w ∧
       acc' = (query_id r, if decide (query_id r = acc.1) then acc.2 else add_record acc.2 w).
Proof.
  unfold totals_step. rewrite bind_Ok. split.
  - intros (w & Hw & [= <-]). by exists w.
  - intros (w & Hw & ->). by exists w.
Qed.

Lemma coverage_step_Ok refs counts r counts' :
  coverage_step refs counts r = Ok counts' ↔
  ∃ w cov cov',
    walk_record refs r = Ok w ∧
    counts !! subject_id r = Some cov ∧
    incr_range cov (w_subject_start w)
      (Z.to_nat (subject_end (w_final w) + 1 - w_subject_start w)) = Ok cov' ∧
    counts' = <[subject_id r := cov']> counts.
Proof.
  unfold coverage_step, getkey. split.
  - intros (w & Hw & H)%bind_Ok.
    destruct (counts !! subject_id r) as [cov|]; [|done].
    run_bind in H.
    apply bind_Ok in H as (cov' & Hcov & [= <-]).
    by exists w, cov, cov'.
  - intros (w & cov & cov' & -> & -> & Hcov & ->).
    run_bind. by rewrite Hcov.
Qed.

Lemma run_records_split refs st rs st' :
  run_records refs st rs = Ok st' ↔
  foldM (totals_step refs) (previous_query_id st, run_totals st) rs
    = Ok (previous_query_id st', run_totals st') ∧
  foldM (coverage_step refs) (positions_count st) rs = Ok (positions_count st').
Proof.
  unfold run_records. revert st. induction rs as [|r rs IH]; intros st; simpl.
  - split.
    + intros [= <-]. done.
    + intros [[= H1 H2] [= H3]]. destruct st, st'; simpl in *. by subst.
  - split.
    + intros (st1 & H1 & Hrest)%bind_Ok. apply IH in Hrest as [Ht Hc].
      apply process_record_Ok in H1 as (w & cov & cov' & Hw & Hcov & Hincr & ->).
      split.
      * apply bind_Ok. eexists. split; [apply totals_step_Ok; by exists w|]. exact Ht.
      * apply bind_Ok. eexists. split; [apply coverage_step_Ok; by exists w, cov, cov'|].
        exact Hc.
    + intros [(acc & Hacc & Ht)%bind_Ok (m1 & Hm1 & Hc)%bind_Ok].
      apply totals_step_Ok in Hacc as (w & Hw & ->).
      apply coverage_step_Ok in Hm1 as (w' & cov & cov' & Hw' & Hcov & Hincr & ->).
      assert (w' = w) as -> by congruence.
      apply bind_Ok. eexists. split.
      * apply process_record_Ok. exists w, cov, cov'. done.
      * apply IH. simpl. done.
Qed.

Lemma last_query_id_cons prev r rs :
  last_query_id prev (r :: rs) = last_query_id (query_id r) rs.
Proof.
  unfold last_query_id. destruct rs as [|s rs]; [done|].
  change (last (r :: s :: rs)) with (last (s :: rs)).
  destruct (last (s :: rs)) eqn:E; [done|]. by apply last_None in E.
Qed.

Lemma representatives_app prev l1 l2 :
  representatives prev (l1 ++ l2)
  = representatives prev l1 ++ representatives (last_query_id prev l1) l2.
Proof.
  revert prev. induction l1 as [|r l1 IH]; intros prev; [done|].
  rewrite last_query_id_cons. simpl. by rewrite IH, <- app_assoc.
Qed.

Lemma last_query_id_app prev l1 l2 :
  last_query_id prev (l1 ++ l2) = last_query_id (last_query_id prev l1) l2.
Proof.
  unfold last_query_id. rewrite last_app. destruct (last l2); [done|]. done.
Qed.

Lemma representatives_sublist prev rs : representatives prev rs ⊆ rs.
Proof.
  revert prev. induction rs as [|r rs IH]; intros prev; simpl; [done|].
  intros x [Hx|Hx]%elem_of_app.
  - case_decide; [by apply elem_of_nil in Hx|]. apply list_elem_of_singleton in Hx as ->.
    by left.
  - right. by eapply IH.
Qed.

(** What the totals are after a pass, and when the pass goes through. *)
Lemma totals_fold_iff refs prev t rs prev' t' :
  foldM (totals_step refs) (prev, t) rs = Ok (prev', t') ↔
  Forall (λ r, ∃ w, walked refs r w) rs ∧
  prev' = last_query_id prev rs ∧
  ∃ ws, Forall2 (walked refs) (representatives prev rs) ws ∧ t' = foldl add_record t ws.
Proof.
  revert prev t. induction rs as [|r rs IH]; intros prev t; simpl.
  - split.
    + intros [= <- <-]. split; [constructor|]. split; [done|]. exists []. split; [constructor|done].
    + intros (_ & -> & ws & Hws & ->). by inv Hws.
  - split.
    + intros ([p1 t1] & H1 & Hrest)%bind_Ok.
      apply totals_step_Ok in H1 as (w & Hw & [= -> ->]). simpl in Hrest.
      apply IH in Hrest as (Hall & -> & ws & Hws & ->).
      split; [constructor; [by exists w|done]|].
      split; [by rewrite last_query_id_cons|].
      destruct (decide (query_id r = prev)); simpl.
      * exists ws. done.
      * exists (w :: ws). split; [by constructor|done].
    + intros (Hall & -> & ws & Hws & ->). inv Hall. destruct H1 as (w & Hw).
      apply bind_Ok. exists (query_id r, if decide (query_id r = prev) then t
                                         else add_record t w).
      split; [apply totals_step_Ok; by exists w|].
      apply IH. split; [done|]. split; [by rewrite last_query_id_cons|].
      destruct (decide (query_id r = prev)); simpl in Hws.
      * by exists ws.
      * inv Hws. unfold walked in *. assert (w = y) as <- by congruence.
        eexists. done.
Qed.

(** ** Query groups *)

Lemma query_groups_cons_shape r rs : ∃ g gs, query_groups (r :: rs) = (r :: g) :: gs.
Proof.
  simpl. destruct (query_groups rs) as [|[|r' g] gs]; [by eexists _, _..|].
  destruct (decide (query_id r = query_id r')); by eexists _, _.
Qed.

Lemma query_groups_concat rs : concat (query_groups rs) = rs.
Proof.
  induction rs as [|r rs IH]; [done|].
  simpl. destruct rs as [|r' rs'].
  - done.
  - destruct (query_groups_cons_shape r' rs') as (g & gs & Hg).
    rewrite Hg in IH |- *. destruct (decide (query_id r = query_id r')); simpl in *;
      by rewrite IH.
Qed.

Lemma query_groups_uniform rs :
  Forall (λ g, ∃ r g', g = r :: g' ∧ Forall (λ r', query_id r' = query_id r) g')
         (query_groups rs).
Proof.
  induction rs as [|r rs IH]; [constructor|].
  simpl. destruct (query_groups rs) as [|[|r' g] gs].
  - repeat constructor. by exists r, [].
  - repeat constructor. by exists r, [].
  - inv IH. destruct H1 as (r0 & g0 & [= -> ->] & Hg0).
    destruct (decide (query_id r = query_id r0)) as [Heq|Hne].
    + constructor; [|done]. exists r, (r0 :: g0). split; [done|].
      constructor; [done|]. eapply Forall_impl; [exact Hg0|]. simpl. congruence.
    + constructor; [by exists r, []|]. constructor; [|done]. by exists r0, g0.
Qed.

Lemma group_heads_representatives r rs :
  omap head (query_groups (r :: rs)) = r :: representatives (query_id r) rs.
Proof.
  revert r. induction rs as [|r' rs IH]; intros r; [done|].
  specialize (IH r').
  change (query_groups (r :: r' :: rs)) with
    (match query_groups (r' :: rs) with
     | (r0 :: g) :: gs =>
         if decide (query_id r = query_id r0) then (r :: r0 :: g) :: gs
         else [r] :: (r0 :: g) :: gs
     | _ => [[r]]
     end).
  destruct (query_groups_cons_shape r' rs) as (g & gs & Hg). rewrite Hg in IH |- *.
  simpl in IH. injection IH as IH.
  cbn [representatives].
  destruct (decide (query_id r = query_id r')) as [Heq|Hne].
  - rewrite decide_True by done. simpl. by rewrite IH.
  - rewrite decide_False by done. simpl. by rewrite IH.
Qed.

Lemma length_group_heads rs :
  length (omap head (query_groups rs)) = length (query_groups rs).
Proof.
  induction (query_groups_uniform rs) as [|g gs (r & g' & -> & _) _ IH]; [done|].
  csimpl. simpl length. by f_equal.
Qed.

Lemma representatives_groups prev rs :
  (∀ r, head rs = Some r → query_id r ≠ prev) →
  representatives prev rs = omap head (query_groups rs) ∧
  length (representatives prev rs) = length (query_groups rs).
Proof.
  intros Hhd.
  assert (representatives prev rs = omap head (query_groups rs)) as Heq.
  { destruct rs as [|r rs]; [done|].
    rewrite group_heads_representatives. cbn [representatives].
    rewrite decide_False by by apply Hhd. done. }
  split; [done|]. rewrite Heq. apply length_group_heads.
Qed.

Lemma foldl_add_record_count t ws :
  total_aligned_contigs_num (foldl add_record t ws)
  = total_aligned_contigs_num t + Z.of_nat (length ws).
Proof.
  revert t. induction ws as [|w ws IH]; intros t; simpl foldl.
  - simpl. lia.
  - rewrite IH. simpl. lia.
Qed.

(** C4: the six totals change together and only at a record whose query
    id differs from the one of the record just before it (the first record
    is compared with the empty initial id). After a pass the totals are the
    initial ones plus the contributions of exactly those records. In the
    script, where a query id is never empty, they are the first records of
    the contiguous query-id groups: one update for each group, however
    many lines the group has. *)
Theorem totals_once_per_group :
  (∀ refs st rs st',
     run_records refs st rs = Ok st' →
     ∃ ws,
       Forall2 (walked refs) (representatives (previous_query_id st) rs) ws ∧
       run_totals st' = foldl add_record (run_totals st) ws ∧
       ((∀ r, head rs = Some r → query_id r ≠ previous_query_id st) →
        representatives (previous_query_id st) rs = omap head (query_groups rs))) ∧
  (∀ cat lines st',
     foldM (process_line (ref_seq_dict cat)) (initial_state cat) lines = Ok st' →
     ∃ rs ws,
       Forall2 parsed (record_lines lines) rs ∧
       Forall2 (walked (ref_seq_dict cat)) (omap head (query_groups rs)) ws ∧
       run_totals st' = foldl add_record zero_totals ws ∧
       total_aligned_contigs_num (run_totals st') = Z.of_nat (length (query_groups rs))).
Proof.
  split.
  - intros refs st rs st' [Ht _]%run_records_split.
    apply totals_fold_iff in Ht as (_ & _ & ws & Hws & Htot).
    exists ws. split; [done|]. split; [done|]. intros Hhd.
    by apply representatives_groups.
  - intros cat lines st' (rs & Hparsed & [Ht _]%run_records_split)%run_lines_records.
    apply totals_fold_iff in Ht as (_ & _ & ws & Hws & Htot). simpl in Hws, Htot.
    destruct (representatives_groups EmptyString rs) as [Hreps Hlen].
    { intros r Hr. destruct Hparsed as [|l r' ls rs' Hl _]; [done|].
      injection Hr as <-. by eapply parse_sam_tab_query_id. }
    exists rs, ws. rewrite <- Hreps. split; [done|]. split; [done|]. split; [done|].
    rewrite Htot, foldl_add_record_count. apply Forall2_length in Hws. simpl. lia.
Qed.

Lemma totals_once_per_group_witness :
  (∃ ws,
     Forall2 (walked sample_refs) (representatives "" sample_records) ws ∧
     run_totals sample_final = foldl add_record zero_totals ws ∧
     representatives "" sample_records = omap head (query_groups sample_records)) ∧
  ∃ rs ws,
    Forall2 parsed
      (record_lines [text_line "q1 0 R1 1 255 3S7M * 0 0 CGTAAAAAAA *"; text_line "";
                     text_line "q1 0 R1 3 255 2M1I1D2M2S * 0 0 aaaaagg *"]) rs ∧
    Forall2 (walked sample_refs) (omap head (query_groups rs)) ws ∧
    Totals 1 10 7 0 0 3 = foldl add_record zero_totals ws ∧
    1 = Z.of_nat (length (query_groups rs)).
Proof.
  split.
  - destruct (proj1 totals_once_per_group sample_refs sample_state sample_records
                sample_final) as (ws & H1 & H2 & H3).
    + vm_compute. reflexivity.
    + exists ws. split; [exact H1|]. split; [exact H2|].
      apply H3. intros r [= <-]. discriminate.
  - apply (proj2 totals_once_per_group (Catalog sample_refs sample_counts 10)
             [text_line "q1 0 R1 1 255 3S7M * 0 0 CGTAAAAAAA *"; text_line "";
              text_line "q1 0 R1 3 255 2M1I1D2M2S * 0 0 aaaaagg *"]
             (RunState "q1" (Totals 1 10 7 0 0 3)
                       {["R1" := [1; 1; 2; 2; 2; 2; 2; 0; 0; 0]]})).
    vm_compute. reflexivity.
Defined.

(** ** Reordering records *)

Lemma foldM_perm {A B} (f : A → B → result A) (l l' : list B) :
  (∀ a x y a1 a2, f a x = Ok a1 → f a1 y = Ok a2 →
                  ∃ a1', f a y = Ok a1' ∧ f a1' x = Ok a2) →
  l ≡ₚ l' → ∀ a a', foldM f a l = Ok a' → foldM f a l' = Ok a'.
Proof.
  intros Hswap. induction 1 as [|x l l' _ IH|x y l|l l' l'' _ IH1 _ IH2]; intros a a'.
  - done.
  - simpl. intros (a1 & H1 & Hrest)%bind_Ok. apply bind_Ok. exists a1. split; [done|].
    by apply IH.
  - simpl. intros (a1 & H1 & (a2 & H2 & Hrest)%bind_Ok)%bind_Ok.
    destruct (Hswap _ _ _ _ _ H1 H2) as (a1' & H1' & H2').
    apply bind_Ok. exists a1'. split; [done|]. apply bind_Ok. exists a2. done.
  - intros H. by apply IH2, IH1.
Qed.

Lemma coverage_step_swap refs counts x y m1 m2 :
  coverage_step refs counts x = Ok m1 → coverage_step refs m1 y = Ok m2 →
  ∃ m1', coverage_step refs counts y = Ok m1' ∧ coverage_step refs m1' x = Ok m2.
Proof.
  intros (wx & cx & cx' & Hwx & Hcx & Hix & ->)%coverage_step_Ok
         (wy & cy & cy' & Hwy & Hcy & Hiy & ->)%coverage_step_Ok.
  destruct (decide (subject_id x = subject_id y)) as [Heq|Hne].
  - rewrite Heq, lookup_insert_eq in Hcy. injection Hcy as <-.
    destruct (incr_range_comm _ _ _ _ _ _ _ Hix Hiy) as (l & Hl1 & Hl2).
    exists (<[subject_id y := l]> counts). split.
    + apply coverage_step_Ok. exists wy, cx, l. by rewrite <- Heq.
    + apply coverage_step_Ok. exists wx, l, cy'. rewrite Heq, lookup_insert_eq.
      by rewrite !insert_insert_eq.
  - rewrite lookup_insert_ne in Hcy by done.
    exists (<[subject_id y := cy']> counts). split.
    + apply coverage_step_Ok. by exists wy, cy, cy'.
    + apply coverage_step_Ok. exists wx, cx, cx'. rewrite lookup_insert_ne by done.
      by rewrite insert_insert_ne by done.
Qed.

(** The coverage lists do not depend on the order of the records. *)
Lemma coverage_fold_perm refs counts rs rs' counts' :
  rs ≡ₚ rs' →
  foldM (coverage_step refs) counts rs = Ok counts' →
  foldM (coverage_step refs) counts rs' = Ok counts'.
Proof.
  intros Hperm. apply foldM_perm; [|done].
  intros a x y a1 a2. apply coverage_step_swap.
Qed.

Lemma representatives_same_id q g :
  Forall (λ r, query_id r = q) g → representatives q g = [].
Proof.
  induction 1 as [|r g Hr _ IH]; [done|].
  simpl. rewrite decide_True by done. by rewrite Hr, IH.
Qed.

Lemma representatives_uniform q prev g :
  Forall (λ r, query_id r = q) g →
  representatives prev g
  = match g with
    | [] => []
    | r :: _ => if decide (q = prev) then [] else [r]
    end.
Proof.
  intros Hg. destruct Hg as [|r g Hr Hg]; [done|].
  simpl. rewrite Hr, (representatives_same_id _ _ Hg), app_nil_r.
  by destruct (decide (q = prev)).
Qed.

Lemma last_query_id_uniform q prev g :
  Forall (λ r, query_id r = q) g →
  last_query_id prev g = match g with [] => prev | _ => q end.
Proof.
  intros Hg. unfold last_query_id. destruct g as [|r g]; [done|].
  destruct (last (r :: g)) as [r'|] eqn:E; [|by apply last_None in E].
  apply last_Some in E as (l' & E). rewrite Forall_forall in Hg. apply Hg.
  rewrite E. apply elem_of_app. right. by left.
Qed.

Lemma Forall_walked_exists refs rs :
  Forall (λ r, ∃ w, walked refs r w) rs → ∃ ws, Forall2 (walked refs) rs ws.
Proof.
  induction 1 as [|r rs (w & Hw) _ (ws & IH)].
  - by exists [].
  - exists (w :: ws). by constructor.
Qed.

Lemma Forall2_walked_inj refs rs ws ws' :
  Forall2 (walked refs) rs ws → Forall2 (walked refs) rs ws' → ws = ws'.
Proof.
  intros H. revert ws'. induction H as [|r w rs ws Hw _ IH]; intros ws' H'; inv H'; [done|].
  unfold walked in *. f_equal; [congruence|by apply IH].
Qed.

(** C3, as stated, fails: the totals are taken from the first record of a
    query-id group, so putting another record of the group first changes
    them. The two records below share the query id [q1]; in one order the
    totals are those of the first record (length 10), in the other those of
    the second (length 7). *)
Lemma reorder_within_group_changes_totals :
  query_id sample_record = query_id sample_record2 ∧
  ∃ s1 s2,
    run_records sample_refs sample_state [sample_record; sample_record2] = Ok s1 ∧
    run_records sample_refs sample_state [sample_record2; sample_record] = Ok s2 ∧
    run_totals s1 = Totals 1 10 7 0 0 3 ∧
    run_totals s2 = Totals 1 7 4 0 2 2.
Proof.
  split; [reflexivity|]. eexists _, _.
  split; [vm_compute; reflexivity|]. split; [vm_compute; reflexivity|].
  split; reflexivity.
Qed.

(** C3, amended: reordering the records inside one contiguous query-id
    group changes neither the coverage lists nor the number of aligned
    contigs, and the run still completes; the five other totals are those
    of the first record of each group, so they are unchanged when the
    reordering keeps the first record of the group first. *)
Theorem reorder_within_group refs st pre g g' post q s1 :
  Forall (λ r, query_id r = q) g → g ≡ₚ g' →
  run_records refs st (pre ++ g ++ post) = Ok s1 →
  ∃ s2,
    run_records refs st (pre ++ g' ++ post) = Ok s2 ∧
    positions_count s2 = positions_count s1 ∧
    total_aligned_contigs_num (run_totals s2) = total_aligned_contigs_num (run_totals s1) ∧
    (head g' = head g → run_totals s2 = run_totals s1).
Proof.
  intros Hg Hperm [Ht Hc]%run_records_split.
  assert (Hperm' : pre ++ g ++ post ≡ₚ pre ++ g' ++ post) by (by rewrite Hperm).
  apply (coverage_fold_perm _ _ _ _ _ Hperm') in Hc.
  apply totals_fold_iff in Ht as (Hall & Hprev & ws & Hws & Htot).
  assert (Hg' : Forall (λ r, query_id r = q) g') by (by rewrite <- Hperm).
  rewrite Hperm' in Hall.
  set (p1 := last_query_id (previous_query_id st) pre) in *.
  assert (Hlast : last_query_id p1 g' = last_query_id p1 g).
  { rewrite (last_query_id_uniform q p1 g Hg), (last_query_id_uniform q p1 g' Hg').
    destruct g, g'; try done.
    - by apply Permutation_nil_cons in Hperm.
    - symmetry in Hperm. by apply Permutation_nil_cons in Hperm. }
  assert (Hprev' : previous_query_id s1
                   = last_query_id (previous_query_id st) (pre ++ g' ++ post)).
  { rewrite Hprev, !last_query_id_app. fold p1. by rewrite Hlast. }
  rewrite !representatives_app in Hws. fold p1 in Hws.
  apply Forall2_app_inv_l in Hws as (ws1 & ws23 & Hws1 & Hws23 & ->).
  apply Forall2_app_inv_l in Hws23 as (ws2 & ws3 & Hws2 & Hws3 & ->).
  assert (∃ ws2', Forall2 (walked refs) (representatives p1 g') ws2') as (ws2' & Hws2').
  { apply Forall_walked_exists. rewrite Forall_forall. intros r Hr.
    rewrite Forall_forall in Hall. apply Hall.
    apply elem_of_app. right. apply elem_of_app. left.
    by apply (representatives_sublist p1 g'). }
  assert (Hlen : length ws2' = length ws2).
  { apply Forall2_length in Hws2, Hws2'. rewrite <- Hws2, <- Hws2'.
    rewrite (representatives_uniform q p1 g Hg), (representatives_uniform q p1 g' Hg').
    destruct g, g'; try done.
    - by apply Permutation_nil_cons in Hperm.
    - symmetry in Hperm. by apply Permutation_nil_cons in Hperm.
    - by destruct (decide (q = p1)). }
  exists (RunState (previous_query_id s1)
                   (foldl add_record (run_totals st) (ws1 ++ ws2' ++ ws3))
                   (positions_count s1)).
  split; [|split; [done|split]].
  - apply run_records_split. simpl. split; [|done].
    apply totals_fold_iff. split; [done|]. split; [done|].
    exists (ws1 ++ ws2' ++ ws3). split; [|done].
    rewrite !representatives_app. fold p1. rewrite Hlast.
    apply Forall2_app; [done|]. by apply Forall2_app.
  - simpl. rewrite Htot, !foldl_add_record_count, !length_app. lia.
  - intros Hhd. simpl. rewrite Htot. do 3 f_equal.
    eapply Forall2_walked_inj; [exact Hws2'|].
    rewrite (representatives_uniform q p1 g' Hg').
    rewrite (representatives_uniform q p1 g Hg) in Hws2.
    destruct g, g'; try done. simpl in Hhd. by injection Hhd as ->.
Qed.

Lemma reorder_within_group_witness :
  ∃ s2,
    run_records sample_refs sample_state
      ([] ++ [sample_record; sample_record2] ++ [sample_record3]) = Ok s2 ∧
    positions_count s2 = positions_count sample_final_swapped ∧
    total_aligned_contigs_num (run_totals s2)
    = total_aligned_contigs_num (run_totals sample_final_swapped) ∧
    (head [sample_record; sample_record2] = head [sample_record2; sample_record] →
     run_totals s2 = run_totals sample_final_swapped).
Proof.
  apply (reorder_within_group sample_refs sample_state [] [sample_record2; sample_record]
           [sample_record; sample_record2] [sample_record3] "q1").
  - repeat constructor.
  - apply perm_swap.
  - vm_compute. reflexivity.
Defined.

(** ** Coverage accounting *)

Lemma record_span_walked refs r w :
  walk_record refs r = Ok w →
  record_span refs r = subject_end (w_final w) + 1 - w_subject_start w ∧
  0 ≤ record_span refs r.
Proof.
  intros Hw. unfold record_span. rewrite Hw.
  destruct (walk_record_span _ _ _ Hw) as [Hspan _].
  pose proof (reference_span_nonneg r). lia.
Qed.

Lemma spans_on_cons refs id r rs :
  spans_on refs id (r :: rs)
  = (if decide (subject_id r = id) then record_span refs r else 0) + spans_on refs id rs.
Proof.
  unfold spans_on. rewrite filter_cons.
  destruct (decide (subject_id r = id)); [rewrite fmap_cons|]; unfold sum_Z; simpl; lia.
Qed.

Lemma coverage_fold_sum refs counts rs counts' id cov' :
  foldM (coverage_step refs) counts rs = Ok counts' →
  counts' !! id = Some cov' →
  ∃ cov, counts !! id = Some cov ∧ length cov' = length cov ∧
         sum_Z cov' = sum_Z cov + spans_on refs id rs.
Proof.
  revert counts. induction rs as [|r rs IH]; intros counts; simpl foldM.
  - intros [= <-] Hcov. exists cov'. unfold spans_on. simpl. split; [done|]. split; [done|lia].
  - intros (m1 & H1 & Hrest)%bind_Ok Hcov.
    destruct (IH _ Hrest Hcov) as (cov1 & Hcov1 & Hlen1 & Hsum1).
    apply coverage_step_Ok in H1 as (w & c & c' & Hw & Hc & Hincr & ->).
    rewrite spans_on_cons.
    destruct (decide (subject_id r = id)) as [<-|Hne].
    + rewrite lookup_insert_eq in Hcov1. injection Hcov1 as <-.
      exists c. split; [done|].
      rewrite Hlen1, Hsum1, (incr_range_length _ _ _ _ Hincr), (incr_range_sum _ _ _ _ Hincr).
      destruct (record_span_walked _ _ _ Hw) as [Hs Hs0]. split; [done|]. lia.
    + rewrite lookup_insert_ne in Hcov1 by done. exists cov1. split; [done|].
      split; [done|lia].
Qed.

(** ** Loading the catalog *)

Lemma upper_length s : String.length (upper s) = String.length s.
Proof. induction s as [|c s IH]; simpl; [done|by rewrite IH]. Qed.

Lemma load_reference_Ok cat header seq cat' :
  load_reference cat (header, seq) = Ok cat' ↔
  ∃ seqid, seqid_of (header, seq) = Ok seqid ∧
    cat' = Catalog (<[seqid := upper seq]> (ref_seq_dict cat))
                   (<[seqid := replicate (String.length seq) 0]>
                      (ref_positions_count_dict cat))
                   (total_ref_length cat + len seq).
Proof.
  unfold load_reference, seqid_of. simpl. rewrite bind_Ok. split.
  - intros (seqid & H & [= <-]). by exists seqid.
  - intros (seqid & H & ->). by exists seqid.
Qed.

Lemma sum_Z_cons x l : sum_Z (x :: l) = x + sum_Z l.
Proof. reflexivity. Qed.

Lemma sum_Z_zero l : Forall (λ c, c = 0) l → sum_Z l = 0.
Proof. induction 1 as [|c l -> _ IH]; [done|]. rewrite sum_Z_cons. lia. Qed.

Lemma load_references_invariant records cat cat' :
  foldM load_reference cat records = Ok cat' →
  coverage_shape (ref_seq_dict cat) (ref_positions_count_dict cat) →
  coverage_zero (ref_positions_count_dict cat) →
  coverage_shape (ref_seq_dict cat') (ref_positions_count_dict cat') ∧
  coverage_zero (ref_positions_count_dict cat').
Proof.
  revert cat. induction records as [|[header seq] records IH]; intros cat; simpl foldM.
  - by intros [= <-].
  - intros (cat1 & H1 & Hrest)%bind_Ok Hshape Hzero.
    apply load_reference_Ok in H1 as (seqid & _ & ->).
    apply (IH _ Hrest); simpl.
    + intros id s Hid. destruct (decide (seqid = id)) as [<-|Hne].
      * rewrite lookup_insert_eq in Hid. injection Hid as <-.
        rewrite lookup_insert_eq. eexists. split; [done|].
        by rewrite length_replicate, upper_length.
      * rewrite lookup_insert_ne in Hid by done. rewrite lookup_insert_ne by done.
        by apply Hshape.
    + intros id cov Hid. destruct (decide (seqid = id)) as [<-|Hne].
      * rewrite lookup_insert_eq in Hid. injection Hid as <-.
        apply Forall_replicate. done.
      * rewrite lookup_insert_ne in Hid by done. by eapply Hzero.
Qed.

Lemma sum_Z_perm l l' : l ≡ₚ l' → sum_Z l = sum_Z l'.
Proof. induction 1; rewrite ?sum_Z_cons; lia. Qed.

Lemma catalog_length_insert refs id seq :
  refs !! id = None → catalog_length (<[id := seq]> refs) = len seq + catalog_length refs.
Proof.
  intros Hid. unfold catalog_length.
  rewrite (sum_Z_perm _ ((λ kv, len kv.2) <$> ((id, seq) :: map_to_list refs))).
  - done.
  - apply fmap_Permutation. by apply map_to_list_insert.
Qed.

Lemma load_references_length records cat cat' :
  foldM load_reference cat records = Ok cat' →
  NoDup (seqid_of <$> records) →
  (∀ rec id, rec ∈ records → seqid_of rec = Ok id → ref_seq_dict cat !! id = None) →
  catalog_length (ref_seq_dict cat') - total_ref_length cat'
  = catalog_length (ref_seq_dict cat) - total_ref_length cat.
Proof.
  revert cat. induction records as [|[header seq] records IH]; intros cat; simpl foldM.
  - by intros [= <-].
  - intros (cat1 & H1 & Hrest)%bind_Ok Hnd Hfresh.
    apply load_reference_Ok in H1 as (seqid & Hseqid & ->).
    rewrite fmap_cons in Hnd. apply NoDup_cons in Hnd as [Hnotin Hnd].
    rewrite (IH _ Hrest Hnd); simpl.
    + rewrite catalog_length_insert.
      * unfold len. rewrite upper_length. lia.
      * eapply Hfresh; [by left|done].
    + intros rec id Hrec Hid. rewrite lookup_insert_ne.
      * eapply Hfresh; [by right|done].
      * intros <-. apply Hnotin. rewrite Hseqid, <- Hid.
        apply list_elem_of_fmap. by exists rec.
Qed.

(** ** The pass keeps the coverage lists well formed *)

Lemma process_record_nonneg refs st r st' :
  process_record refs st r = Ok st' →
  coverage_nonneg (positions_count st) → coverage_nonneg (positions_count st').
Proof.
  intros (w & cov & cov' & _ & Hc & Hincr & ->)%process_record_Ok Hnn id c.
  simpl. destruct (decide (subject_id r = id)) as [<-|Hne].
  - rewrite lookup_insert_eq. intros [= <-]. eapply incr_range_nonneg; [done|].
    by eapply Hnn.
  - rewrite lookup_insert_ne by done. apply Hnn.
Qed.

Lemma run_records_invariant refs st rs st' :
  run_records refs st rs = Ok st' →
  coverage_shape refs (positions_count st) → coverage_nonneg (positions_count st) →
  coverage_shape refs (positions_count st') ∧ coverage_nonneg (positions_count st').
Proof.
  unfold run_records. revert st. induction rs as [|r rs IH]; intros st; simpl.
  - by intros [= <-].
  - intros (st1 & H1 & Hrest)%bind_Ok Hshape Hnn. apply (IH _ Hrest).
    + by eapply process_record_shape.
    + by eapply process_record_nonneg.
Qed.

(** ** The histogram *)

Lemma bucket_position_Ok c l d c' l' :
  bucket_position (c, l) d = Ok (c', l') → 0 ≤ d →
  length l' = length l ∧ sum_Z l' = sum_Z l + 1 ∧
  ∀ (i : nat) x, l !! i = Some x →
    l' !! i = Some (if decide (bucket_of d = Z.of_nat i) then x + 1 else x).
Proof.
  unfold bucket_position, bucket_of. intros (l1 & H1 & [= <- <-])%bind_Ok Hd.
  destruct (10 <=? d) eqn:E.
  - split; [by eapply incr_item_length|]. split; [by eapply incr_item_sum|].
    intros i x Hi. rewrite (incr_item_lookup _ _ _ _ _ H1 ltac:(lia) Hi).
    f_equal. repeat case_decide; lia.
  - split; [by eapply incr_item_length|]. split; [by eapply incr_item_sum|].
    intros i x Hi. rewrite (incr_item_lookup _ _ _ _ _ H1 Hd Hi).
    f_equal. repeat case_decide; lia.
Qed.

Lemma count_in_bucket_cons i d cov :
  count_in_bucket i (d :: cov)
  = (if decide (bucket_of d = Z.of_nat i) then 1 else 0) + count_in_bucket i cov.
Proof.
  unfold count_in_bucket. rewrite filter_cons.
  destruct (decide (bucket_of d = Z.of_nat i)); simpl length; lia.
Qed.

Lemma bucket_fold_Ok cov c l c' l' :
  foldM bucket_position (c, l) cov = Ok (c', l') → Forall (λ d, 0 ≤ d) cov →
  length l' = length l ∧ sum_Z l' = sum_Z l + Z.of_nat (length cov) ∧
  ∀ (i : nat) x, l !! i = Some x → l' !! i = Some (x + count_in_bucket i cov).
Proof.
  revert c l. induction cov as [|d cov IH]; intros c l; simpl foldM.
  - intros [= <- <-] _. split; [done|]. split; [simpl; lia|].
    intros i x Hi. rewrite Hi. f_equal. unfold count_in_bucket. simpl. lia.
  - intros ([c1 l1] & H1 & Hrest)%bind_Ok Hcov. inv Hcov.
    destruct (bucket_position_Ok _ _ _ _ _ H1 H2) as (Hlen1 & Hsum1 & Hlk1).
    destruct (IH _ _ Hrest H3) as (Hlen & Hsum & Hlk).
    split; [congruence|]. split; [simpl length; lia|].
    intros i x Hi. rewrite (Hlk _ _ (Hlk1 _ _ Hi)). f_equal.
    rewrite count_in_bucket_cons. case_decide; lia.
Qed.

Lemma bucket_references_Ok counts ids tc l tc' l' :
  foldM (bucket_reference counts) (tc, l) ids = Ok (tc', l') →
  coverage_nonneg counts →
  length l' = length l ∧
  sum_Z l' = sum_Z l + sum_Z ((λ cov, Z.of_nat (length cov))
                              <$> omap (λ id, counts !! id) ids) ∧
  ∀ (i : nat) x, l !! i = Some x →
    l' !! i = Some (x + positions_in_bucket i (omap (λ id, counts !! id) ids)).
Proof.
  intros H Hnn. revert tc l H. induction ids as [|id ids IH]; intros tc l; simpl foldM.
  - intros [= <- <-]. split; [done|]. split; [simpl; lia|].
    intros i x Hi. rewrite Hi. f_equal. unfold positions_in_bucket. simpl. lia.
  - intros ([tc1 l1] & H1 & Hrest)%bind_Ok.
    unfold bucket_reference, getkey in H1.
    destruct (counts !! id) as [cov|] eqn:Hid; [|done].
    run_bind in H1.
    apply bind_Ok in H1 as ([c2 l2] & H2 & [= <- <-]).
    destruct (bucket_fold_Ok _ _ _ _ _ H2 (Hnn _ _ Hid)) as (Hlen1 & Hsum1 & Hlk1).
    destruct (IH _ _ Hrest) as (Hlen & Hsum & Hlk).
    cbn [omap list_omap]. rewrite Hid. cbn [fmap list_fmap].
    split; [simpl in *; congruence|]. split; [rewrite sum_Z_cons; simpl in *; lia|].
    intros i x Hi. simpl in Hlk. rewrite (Hlk _ _ (Hlk1 _ _ Hi)). f_equal.
    unfold positions_in_bucket. rewrite fmap_cons, sum_Z_cons. lia.
Qed.

Lemma coverage_lists_length refs counts (kvs : list (string * string)) :
  coverage_shape refs counts →
  Forall (λ kv, refs !! kv.1 = Some kv.2) kvs →
  sum_Z ((λ cov, Z.of_nat (length cov)) <$> omap (λ id, counts !! id) (kvs.*1))
  = sum_Z ((λ kv, len kv.2) <$> kvs).
Proof.
  intros Hshape. induction 1 as [|[id seq] kvs Hkv _ IH]; [done|].
  simpl in Hkv. destruct (Hshape _ _ Hkv) as (cov & Hcov & Hlen).
  cbn [fmap list_fmap omap list_omap fst]. rewrite Hcov.
  cbn [fmap list_fmap]. rewrite !sum_Z_cons.
  cbn [fmap list_fmap omap list_omap fst] in IH. rewrite IH. simpl. unfold len. lia.
Qed.

(** ** The final statistics and the script *)

Lemma final_stats_Ok cat st rep :
  final_stats cat st = Ok rep →
  total_aligned_contigs_length (run_totals st) ≠ 0 ∧
  rep_total_ref_length rep = total_ref_length cat ∧
  rep_totals rep = run_totals st ∧
  ∃ tc, foldM (bucket_reference (positions_count st)) (0, replicate 11 0)
              ((map_to_list (ref_seq_dict cat)).*1)
        = Ok (tc, rep_coverage_count_list rep).
Proof.
  unfold final_stats. intros (e & He & H)%bind_Ok.
  apply bind_Ok in H as ([tc ccl] & Hhist & H).
  apply bind_Ok in H as ([mc pcl] & _ & H).
  apply bind_Ok in H as (trc & _ & [= <-]). simpl.
  split; [|split; [done|split; [done|by exists tc]]].
  unfold fdiv in He. destruct (Z.eqb_spec (total_aligned_contigs_length (run_totals st)) 0);
    done.
Qed.

Lemma main_Ok references input_sam rep :
  main references input_sam = Ok rep →
  ∃ records cat st,
    read_fasta_file_handle references = Ok records ∧
    load_references records = Ok cat ∧
    foldM (process_line (ref_seq_dict cat)) (initial_state cat) input_sam = Ok st ∧
    final_stats cat st = Ok rep.
Proof.
  unfold main. intros (records & H1 & (cat & H2 & (st & H3 & H4)%bind_Ok)%bind_Ok)%bind_Ok.
  by exists records, cat, st.
Qed.

Lemma load_references_well_formed records cat :
  load_references records = Ok cat →
  coverage_shape (ref_seq_dict cat) (ref_positions_count_dict cat) ∧
  coverage_zero (ref_positions_count_dict cat) ∧
  (NoDup (seqid_of <$> records) → catalog_length (ref_seq_dict cat) = total_ref_length cat).
Proof.
  intros Hload. unfold load_references in Hload.
  destruct (load_references_invariant _ _ _ Hload) as [Hshape Hzero].
  - intros id seq Hid. cbn in Hid. by rewrite lookup_empty in Hid.
  - intros id cov Hid. cbn in Hid. by rewrite lookup_empty in Hid.
  - split; [done|]. split; [done|]. intros Hnd.
    assert (catalog_length (ref_seq_dict empty_catalog) = 0) as H0.
    { unfold catalog_length. cbn [empty_catalog ref_seq_dict].
      by rewrite map_to_list_empty. }
    pose proof (load_references_length _ _ _ Hload Hnd) as H.
    rewrite H0 in H. cbn [empty_catalog total_ref_length] in H.
    assert (catalog_length (ref_seq_dict cat) - total_ref_length cat = 0); [|lia].
    rewrite H; [lia|]. intros rec id _ _. apply lookup_empty.
Qed.

Lemma coverage_zero_nonneg counts : coverage_zero counts → coverage_nonneg counts.
Proof.
  intros H id cov Hid. eapply Forall_impl; [by eapply H|]. simpl. lia.
Qed.

(** C8, as stated, fails when an id is repeated in the reference file: the
    two records named [R1] add 2 + 1 to the total reference length, the
    catalog keeps the second sequence only, and the buckets sum to 1. *)
Lemma repeated_id_breaks_histogram_sum :
  ∃ rep,
    main [text_line ">R1"; text_line "AC"; text_line ">R1"; text_line "G"]
         [text_line "q1 0 R1 1 255 1M * 0 0 G *"] = Ok rep ∧
    sum_Z (rep_coverage_count_list rep) = 1 ∧
    rep_total_ref_length rep = 3.
Proof.
  eexists. split; [vm_compute; reflexivity|]. split; reflexivity.
Qed.

(** C8, amended: after a complete run the histogram has 11 buckets; bucket
    [i] counts the positions of the catalog's coverage lists whose depth is
    [i], for [i] up to 9, and bucket 10 those whose depth is 10 or more;
    depths are never negative, so each position is in exactly one bucket
    and the buckets sum to the total length of the sequences the catalog
    holds. That sum is the total reference length when the ids of the
    reference file are pairwise distinct. *)
Theorem histogram_complete references input_sam rep :
  main references input_sam = Ok rep →
  ∃ records cat st,
    read_fasta_file_handle references = Ok records ∧
    load_references records = Ok cat ∧
    foldM (process_line (ref_seq_dict cat)) (initial_state cat) input_sam = Ok st ∧
    length (rep_coverage_count_list rep) = 11%nat ∧
    (∀ i, (i < 11)%nat →
       rep_coverage_count_list rep !! i
       = Some (positions_in_bucket i
                 (coverage_lists (ref_seq_dict cat) (positions_count st)))) ∧
    coverage_nonneg (positions_count st) ∧
    sum_Z (rep_coverage_count_list rep) = catalog_length (ref_seq_dict cat) ∧
    (NoDup (seqid_of <$> records) →
     sum_Z (rep_coverage_count_list rep) = rep_total_ref_length rep).
Proof.
  intros (records & cat & st & Hread & Hload & Hrun & Hfinal)%main_Ok.
  exists records, cat, st. split; [done|]. split; [done|]. split; [done|].
  destruct (load_references_well_formed _ _ Hload) as (Hshape0 & Hzero0 & Htotal).
  destruct (run_lines_records _ _ _ _ Hrun) as (rs & _ & Hrs).
  destruct (run_records_invariant _ _ _ _ Hrs Hshape0 (coverage_zero_nonneg _ Hzero0))
    as [Hshape Hnn].
  destruct (final_stats_Ok _ _ _ Hfinal) as (_ & Hlen & _ & tc & Hhist).
  destruct (bucket_references_Ok _ _ _ _ _ _ Hhist Hnn) as (Hl & Hsum & Hlk).
  rewrite length_replicate in Hl.
  assert (Hcat : sum_Z (rep_coverage_count_list rep) = catalog_length (ref_seq_dict cat)).
  { rewrite Hsum, sum_Z_zero by (by apply Forall_replicate).
    rewrite (coverage_lists_length (ref_seq_dict cat)); [done|done|].
    rewrite Forall_forall. intros [id seq] Hin. by apply elem_of_map_to_list in Hin. }
  split; [done|]. split; [|split; [done|split; [done|]]].
  - intros i Hi. rewrite (Hlk i 0); [by rewrite Z.add_0_l|].
    by apply lookup_replicate_2.
  - intros Hnd. rewrite Hcat, Hlen. by apply Htotal.
Qed.

Lemma histogram_complete_witness :
  ∃ records cat st,
    read_fasta_file_handle [text_line ">R1 ten A"; text_line "AAAAA"; text_line "AAAAA"]
    = Ok records ∧
    load_references records = Ok cat ∧
    foldM (process_line (ref_seq_dict cat)) (initial_state cat)
          [text_line "q1 0 R1 1 255 3S7M * 0 0 CGTAAAAAAA *"] = Ok st ∧
    length [3; 7; 0; 0; 0; 0; 0; 0; 0; 0; 0] = 11%nat ∧
    (∀ i, (i < 11)%nat →
       [3; 7; 0; 0; 0; 0; 0; 0; 0; 0; 0] !! i
       = Some (positions_in_bucket i
                 (coverage_lists (ref_seq_dict cat) (positions_count st)))) ∧
    coverage_nonneg (positions_count st) ∧
    sum_Z [3; 7; 0; 0; 0; 0; 0; 0; 0; 0; 0] = catalog_length (ref_seq_dict cat) ∧
    (NoDup (seqid_of <$> records) → sum_Z [3; 7; 0; 0; 0; 0; 0; 0; 0; 0; 0] = 10).
Proof.
  apply (histogram_complete
           [text_line ">R1 ten A"; text_line "AAAAA"; text_line "AAAAA"]
           [text_line "q1 0 R1 1 255 3S7M * 0 0 CGTAAAAAAA *"]
           (Report (Totals 1 10 7 0 0 3) 10 3 (float_of_int 300) (float_of_int 70)
                   [3; 7; 0; 0; 0; 0; 0; 0; 0; 0; 0] 1
                   [float_of_int 30; float_of_int 70; float_0; float_0; float_0; float_0;
                    float_0; float_0; float_0; float_0; float_0])).
  vm_compute. reflexivity.
Defined.

(** C2, as stated, fails: with a reference file and no alignment record
    (an empty file, or blank lines only) the script reaches the division
    with a zero length; the run aborts on the division error and no report
    is produced. *)
Lemma no_alignment_run_divides :
  main [text_line ">R1 ten A"; text_line "AAAAA"; text_line "AAAAA"] []
  = Err ZeroDivisionError ∧
  main [text_line ">R1 ten A"; text_line "AAAAA"; text_line "AAAAA"] [text_line ""]
  = Err ZeroDivisionError.
Proof. split; vm_compute; reflexivity. Qed.

(** C2, amended: when the total aligned length is zero at the end of the
    pass the script divides without any guard: the division raises a
    division-by-zero error, which aborts the run before anything is
    reported. *)
Theorem zero_length_divides :
  (∀ cat st,
     total_aligned_contigs_length (run_totals st) = 0 →
     final_stats cat st = Err ZeroDivisionError) ∧
  (∀ references input_sam records cat st,
     read_fasta_file_handle references = Ok records →
     load_references records = Ok cat →
     foldM (process_line (ref_seq_dict cat)) (initial_state cat) input_sam = Ok st →
     total_aligned_contigs_length (run_totals st) = 0 →
     main references input_sam = Err ZeroDivisionError).
Proof.
  assert (∀ cat st, total_aligned_contigs_length (run_totals st) = 0 →
                    final_stats cat st = Err ZeroDivisionError) as Hfinal.
  { intros cat st Hz. unfold final_stats, fdiv. rewrite Hz. reflexivity. }
  split; [exact Hfinal|].
  intros references input_sam records cat st Hread Hload Hrun Hz.
  unfold main. rewrite Hread. run_bind. rewrite Hload.
  run_bind. rewrite Hrun. run_bind.
  by apply Hfinal.
Qed.

Lemma zero_length_divides_witness :
  final_stats (Catalog sample_refs sample_counts 10) sample_state = Err ZeroDivisionError ∧
  main [text_line ">R1 ten A"; text_line "AAAAA"; text_line "AAAAA"] []
  = Err ZeroDivisionError.
Proof.
  split.
  - apply (proj1 zero_length_divides (Catalog sample_refs sample_counts 10) sample_state).
    reflexivity.
  - apply (proj2 zero_length_divides
             [text_line ">R1 ten A"; text_line "AAAAA"; text_line "AAAAA"] []
             [("R1 ten A", "AAAAAAAAAA")]
             (Catalog sample_refs sample_counts 10)
             (initial_state (Catalog sample_refs sample_counts 10)));
      vm_compute; reflexivity.
Defined.

(** C5, as stated, fails for a record whose position field is 0: then
    [subject_start] is -1, the first subscript of the increment loop counts
    from the end of the coverage list, and the run completes. On the
    reference [AC] a block of three bases covers the range [-1, 1]: the
    coverage becomes [1; 2], so position 1 of the range grows by 2. On the
    reference [ACGT] the same range gives [1; 1; 0; 1]: position 3, which is
    outside the range, grows by 1. *)
Lemma first_pos_zero_wraps_coverage :
  parse_sam_tab (split (text_line "q1 0 R1 0 255 3M * 0 0 CAC *"))
  = Ok (SamRecord "q1" 0 "R1" 0 255 "3M" "CAC") ∧
  walk_record {["R1" := "AC"]} (SamRecord "q1" 0 "R1" 0 255 "3M" "CAC")
  = Ok (WalkResult 3 0 (-1) (WalkState 2 1 0 3 0 0)) ∧
  process_record {["R1" := "AC"]} (RunState "" zero_totals {["R1" := [0; 0]]})
                 (SamRecord "q1" 0 "R1" 0 255 "3M" "CAC")
  = Ok (RunState "q1" (Totals 1 3 3 0 0 0) {["R1" := [1; 2]]}) ∧
  process_record {["R1" := "ACGT"]} (RunState "" zero_totals {["R1" := [0; 0; 0; 0]]})
                 (SamRecord "q1" 0 "R1" 0 255 "3M" "CAC")
  = Ok (RunState "q1" (Totals 1 3 2 1 0 0) {["R1" := [1; 1; 0; 1]]}) ∧
  succeeds (main [text_line ">R1"; text_line "AC"]
                 [text_line "q1 0 R1 0 255 3M * 0 0 CAC *"]).
Proof.
  split; [vm_compute; reflexivity|]. split; [vm_compute; reflexivity|].
  split; [vm_compute; reflexivity|]. split; [vm_compute; reflexivity|].
  eexists. vm_compute. reflexivity.
Qed.

(** C5, amended: a processed record whose position field is at least 1 (so
    that [subject_start] is not negative), whatever its query id, adds
    exactly 1 to the coverage of its reference at each position of the
    inclusive range [subject_start, subject_end] and changes nothing else;
    after a pass, whatever the positions of the records, the coverage list
    of each reference has grown, in sum, by the sum of
    [subject_end - subject_start + 1] over all the records mapped to it. *)
Theorem coverage_counts_every_record :
  (∀ refs st r st' w,
     process_record refs st r = Ok st' → walk_record refs r = Ok w →
     1 ≤ first_pos r →
     ∃ cov cov',
       positions_count st !! subject_id r = Some cov ∧
       positions_count st' !! subject_id r = Some cov' ∧
       length cov' = length cov ∧
       (∀ (p : nat) c, cov !! p = Some c →
          cov' !! p
          = Some (if decide (w_subject_start w ≤ Z.of_nat p ≤ subject_end (w_final w))
                  then c + 1 else c)) ∧
       (∀ id, id ≠ subject_id r → positions_count st' !! id = positions_count st !! id)) ∧
  (∀ refs st rs st' id cov',
     run_records refs st rs = Ok st' →
     positions_count st' !! id = Some cov' →
     ∃ cov, positions_count st !! id = Some cov ∧
            sum_Z cov' = sum_Z cov + spans_on refs id rs) ∧
  (∀ records cat rs st' id cov',
     load_references records = Ok cat →
     run_records (ref_seq_dict cat) (initial_state cat) rs = Ok st' →
     positions_count st' !! id = Some cov' →
     sum_Z cov' = spans_on (ref_seq_dict cat) id rs).
Proof.
  assert (∀ refs st rs st' id cov',
            run_records refs st rs = Ok st' →
            positions_count st' !! id = Some cov' →
            ∃ cov, positions_count st !! id = Some cov ∧
                   sum_Z cov' = sum_Z cov + spans_on refs id rs) as Hsum.
  { intros refs st rs st' id cov' [_ Hc]%run_records_split Hcov.
    destruct (coverage_fold_sum _ _ _ _ _ _ Hc Hcov) as (cov & H1 & _ & H2).
    by exists cov. }
  split; [|split; [exact Hsum|]]; cycle 1.
  { intros records cat rs st' id cov' Hload Hrun Hcov.
    destruct (Hsum _ _ _ _ _ _ Hrun Hcov) as (cov & Hinit & ->).
    destruct (load_references_well_formed _ _ Hload) as (_ & Hzero & _).
    rewrite (sum_Z_zero cov); [lia|]. by eapply Hzero. }
  - intros refs st r st' w (w' & cov & cov' & Hw' & Hcov & Hincr & ->)%process_record_Ok
           Hw Hpos.
    assert (w' = w) as -> by congruence.
    destruct (walk_record_span _ _ _ Hw) as [Hspan Hstart].
    pose proof (reference_span_nonneg r) as Hnn.
    exists cov, cov'. simpl. split; [done|]. split; [by rewrite lookup_insert_eq|].
    split; [by eapply incr_range_length|]. split.
    + intros p c Hp.
      rewrite (incr_range_lookup _ _ _ _ _ _ Hincr ltac:(lia) Hp).
      f_equal. repeat case_decide; lia.
    + intros id Hid. by rewrite lookup_insert_ne.
Qed.

Lemma coverage_counts_every_record_witness :
  (∃ cov cov',
     positions_count sample_state !! subject_id sample_record = Some cov ∧
     positions_count sample_state1 !! subject_id sample_record = Some cov' ∧
     length cov' = length cov ∧
     (∀ (p : nat) c, cov !! p = Some c →
        cov' !! p
        = Some (if decide (w_subject_start sample_walk ≤ Z.of_nat p
                           ≤ subject_end (w_final sample_walk))
                then c + 1 else c)) ∧
     (∀ id, id ≠ subject_id sample_record →
        positions_count sample_state1 !! id = positions_count sample_state !! id)) ∧
  (∃ cov, positions_count sample_state !! "R1" = Some cov ∧
          sum_Z [1; 2; 3; 3; 3; 2; 2; 0; 0; 0]
          = sum_Z cov + spans_on sample_refs "R1" sample_records) ∧
  sum_Z [1; 2; 3; 3; 3; 2; 2; 0; 0; 0] = spans_on sample_refs "R1" sample_records.
Proof.
  split; [|split].
  - apply (proj1 coverage_counts_every_record sample_refs sample_state sample_record
             sample_state1 sample_walk).
    + vm_compute. reflexivity.
    + vm_compute. reflexivity.
    + vm_compute. discriminate.
  - apply (proj1 (proj2 coverage_counts_every_record) sample_refs sample_state
             sample_records sample_final "R1" [1; 2; 3; 3; 3; 2; 2; 0; 0; 0]).
    + vm_compute. reflexivity.
    + vm_compute. reflexivity.
  - apply (proj2 (proj2 coverage_counts_every_record) [("R1 ten A", "AAAAAAAAAA")]
             (Catalog sample_refs sample_counts 10) sample_records sample_final "R1").
    + vm_compute. reflexivity.
    + vm_compute. reflexivity.
    + vm_compute. reflexivity.
Defined.


(** * Further properties of the script *)

(** ** More on the CIGAR parser *)

Lemma append_cons c s t : String c s +:+ t = String c (s +:+ t).
Proof. reflexivity. Qed.

Lemma append_nil_l t : EmptyString +:+ t = t.
Proof. reflexivity. Qed.

Lemma cigar_ops_app pending s1 s2 :
  ends_with_operator s1 = true →
  cigar_ops pending (s1 +:+ s2) = cigar_ops pending s1 ++ cigar_ops None s2.
Proof.
  revert pending. induction s1 as [|c rest IH]; intros pending; [done|].
  rewrite append_cons. destruct rest as [|c' rest'].
  - simpl. intros Hc. apply negb_true_iff in Hc. by rewrite Hc.
  - intros Hend. cbn [cigar_ops]. change (ends_with_operator (String c' rest') = true) in Hend.
    destruct (isdigit c).
    + by apply IH.
    + rewrite (IH _ Hend). done.
Qed.

(** X1: parsing distributes over concatenation at an operator: when the
    first string is empty or ends with an operator, the operation list of
    the concatenation is the two operation lists one after the other. *)
Theorem parse_cigar_concat s1 s2 tab1 tab2 :
  s1 = EmptyString ∨ ends_with_operator s1 = true →
  parse_cigar s1 = Ok tab1 → parse_cigar s2 = Ok tab2 →
  parse_cigar (s1 +:+ s2) = Ok (tab1 ++ tab2).
Proof.
  rewrite !parse_cigar_ops. intros Hs1 [= <-] [= <-]. f_equal.
  destruct Hs1 as [->|Hend]; [done|]. by apply cigar_ops_app.
Qed.

Lemma parse_cigar_concat_witness :
  parse_cigar ("3S" +:+ "7M") = Ok ([("S"%char, 3)] ++ [("M"%char, 7)]).
Proof.
  apply (parse_cigar_concat "3S" "7M"); [right|..]; vm_compute; reflexivity.
Defined.

Lemma cigar_ops_digits pending d : all_digits d = true → cigar_ops pending d = [].
Proof.
  revert pending. induction d as [|c d IH]; intros pending; simpl; [done|].
  intros [Hc Hd]%andb_true_iff. rewrite Hc. by apply IH.
Qed.

(** X2: digits after the last operator are dropped without an error: a
    string followed by any run of digits parses to the same operation list
    as the string alone. *)
Theorem parse_cigar_trailing_digits s d :
  all_digits d = true → parse_cigar (s +:+ d) = parse_cigar s.
Proof.
  intros Hd. rewrite !parse_cigar_ops. f_equal.
  generalize (@None Z). induction s as [|c s IH]; intros pending.
  - rewrite append_nil_l. by apply cigar_ops_digits.
  - rewrite append_cons. simpl. destruct (isdigit c); by rewrite IH.
Qed.

Lemma parse_cigar_trailing_digits_witness :
  parse_cigar ("10M" +:+ "25") = parse_cigar "10M".
Proof. apply (parse_cigar_trailing_digits "10M" "25"). reflexivity. Defined.

Lemma append_assoc s1 s2 s3 : (s1 +:+ s2) +:+ s3 = s1 +:+ (s2 +:+ s3).
Proof. induction s1 as [|c s1 IH]; [done|]. rewrite !append_cons. by rewrite IH. Qed.

Lemma digit_char_spec d :
  0 ≤ d ≤ 9 → isdigit (digit_char d) = true ∧ digit_value (digit_char d) = d.
Proof.
  intros Hd. unfold isdigit, digit_value, digit_char.
  rewrite N_ascii_embedding by lia. split.
  - apply andb_true_iff. split; apply N.leb_le; lia.
  - lia.
Qed.

Lemma dec_digits_acc fuel n acc :
  dec_digits fuel n acc = dec_digits fuel n EmptyString +:+ acc.
Proof.
  revert n acc. induction fuel as [|fuel IH]; intros n acc; simpl; [done|].
  destruct (n <? 10); [done|].
  rewrite (IH _ (String _ acc)), (IH _ (String _ EmptyString)), append_assoc. done.
Qed.

Lemma digits_value_app a s1 s2 :
  digits_value a (s1 +:+ s2) = digits_value (digits_value a s1) s2.
Proof.
  revert a. induction s1 as [|c s1 IH]; intros a; [done|].
  rewrite append_cons. simpl. apply IH.
Qed.

Lemma all_digits_app s1 s2 :
  all_digits (s1 +:+ s2) = all_digits s1 && all_digits s2.
Proof.
  induction s1 as [|c s1 IH]; [done|].
  rewrite append_cons. simpl. by rewrite IH, andb_assoc.
Qed.

Lemma dec_digits_spec fuel n :
  0 ≤ n → (Z.to_nat n < fuel)%nat →
  digits_value 0 (dec_digits fuel n EmptyString) = n ∧
  all_digits (dec_digits fuel n EmptyString) = true ∧
  dec_digits fuel n EmptyString ≠ EmptyString.
Proof.
  revert n. induction fuel as [|fuel IH]; intros n Hn Hfuel; [lia|].
  simpl. pose proof (Z.mod_pos_bound n 10 ltac:(lia)) as Hmod.
  destruct (digit_char_spec (n mod 10) ltac:(lia)) as [Hd Hv].
  destruct (Z.ltb_spec n 10) as [Hlt|Hge].
  - simpl. rewrite Hd, Hv. rewrite Z.mod_small by lia. done.
  - rewrite dec_digits_acc.
    pose proof (Z.div_mod n 10 ltac:(lia)) as Hdm.
    assert (0 ≤ n / 10) by (apply Z.div_pos; lia).
    destruct (IH (n / 10)) as (H1 & H2 & H3); [lia|lia|].
    rewrite digits_value_app, H1, all_digits_app, H2. simpl. rewrite Hd, Hv.
    split; [lia|]. split; [done|].
    destruct (dec_digits fuel (n / 10) EmptyString); done.
Qed.

Lemma str_of_int_spec n :
  0 ≤ n →
  digits_value 0 (str_of_int n) = n ∧ all_digits (str_of_int n) = true ∧
  str_of_int n ≠ EmptyString.
Proof. intros Hn. apply dec_digits_spec; [done|lia]. Qed.

Lemma cigar_ops_count pending ds s :
  all_digits ds = true →
  cigar_ops pending (ds +:+ s)
  = cigar_ops (match ds with
               | EmptyString => pending
               | _ => Some (digits_value (default 0 pending) ds)
               end) s.
Proof.
  revert pending. induction ds as [|c ds IH]; intros pending; [done|].
  simpl all_digits. intros [Hc Hds]%andb_true_iff.
  rewrite append_cons. cbn [cigar_ops]. rewrite Hc, (IH _ Hds).
  destruct ds; done.
Qed.

(** X3: the parser reads back what the run-length notation writes: for a
    list of operations whose operators are not digits and whose counts are
    not negative, parsing the string "count operator count operator ..."
    returns the list itself. *)
Theorem parse_render_cigar tab :
  Forall (λ op, isdigit op.1 = false ∧ 0 ≤ op.2) tab →
  parse_cigar (render_cigar tab) = Ok tab.
Proof.
  intros Htab. rewrite parse_cigar_ops. f_equal.
  induction Htab as [|[o n] tab [Ho Hn] _ IH]; [done|].
  simpl in Ho, Hn. cbn [render_cigar].
  destruct (str_of_int_spec n Hn) as (Hv & Hd & Hne).
  rewrite (cigar_ops_count _ _ _ Hd).
  destruct (str_of_int n) as [|c ds] eqn:Hstr; [done|].
  change (default 0 None) with 0. rewrite Hv.
  cbn [cigar_ops]. rewrite Ho, IH. done.
Qed.

Lemma parse_render_cigar_witness :
  parse_cigar (render_cigar [("S"%char, 3); ("M"%char, 120); ("I"%char, 0)])
  = Ok [("S"%char, 3); ("M"%char, 120); ("I"%char, 0)].
Proof.
  apply (parse_render_cigar [("S"%char, 3); ("M"%char, 120); ("I"%char, 0)]).
  repeat constructor; simpl; lia.
Defined.

(** ** More on the sequence loader *)

Lemma read_fasta_loop_sequence_lines ls more header seqlines sequence_nb :
  Forall sequence_line ls →
  read_fasta_loop (ls ++ more) header seqlines sequence_nb
  = read_fasta_loop more header (seqlines ++ (strip <$> ls)) sequence_nb.
Proof.
  intros Hls. revert seqlines. induction Hls as [|l ls [Hne Hh] _ IH]; intros seqlines.
  - simpl. by rewrite app_nil_r.
  - destruct l as [|c t]; [done|]. simpl in Hh.
    cbn [app read_fasta_loop]. rewrite getitem_str_first. run_bind. rewrite Hh.
    rewrite IH, fmap_cons, <- app_assoc. done.
Qed.

Lemma read_fasta_loop_records recs header seqlines sequence_nb :
  0 < sequence_nb →
  Forall (λ rec, Forall sequence_line rec.2) recs →
  read_fasta_loop (fasta_lines recs) header seqlines sequence_nb
  = Ok ((header, join seqlines)
        :: ((λ rec, (rstrip rec.1, join (strip <$> rec.2))) <$> recs)).
Proof.
  intros Hnb Hrecs. revert header seqlines sequence_nb Hnb.
  induction Hrecs as [|[h ls] recs Hls _ IH]; intros header seqlines nb Hnb; [done|].
  cbn [fasta_lines read_fasta_loop]. rewrite getitem_str_first. run_bind.
  change (Ascii.eqb ">" ">") with true. cbn iota.
  destruct (Z.eqb_spec nb 0) as [|_]; [lia|].
  rewrite (read_fasta_loop_sequence_lines _ _ _ _ _ Hls).
  rewrite IH by lia. done.
Qed.

(** X4: on a well-formed file the loader returns the records that were
    written: a file made of header lines, each followed by lines that are
    not empty and do not start with [>], gives one pair for each header,
    in order, holding the header text without trailing white space and
    the stripped sequence lines joined. *)
Theorem read_fasta_well_formed recs :
  recs ≠ [] →
  Forall (λ rec, Forall sequence_line rec.2) recs →
  read_fasta_file_handle (fasta_lines recs)
  = Ok ((λ rec, (rstrip rec.1, join (strip <$> rec.2))) <$> recs).
Proof.
  intros Hne Hrecs. destruct Hrecs as [|[h ls] recs Hls Hrecs]; [done|].
  unfold read_fasta_file_handle. cbn [fasta_lines read_fasta_loop].
  rewrite getitem_str_first. run_bind. change (Ascii.eqb ">" ">") with true. cbn iota.
  change (0 =? 0) with true. cbn iota.
  rewrite (read_fasta_loop_sequence_lines _ _ _ _ _ Hls).
  rewrite read_fasta_loop_records by done. done.
Qed.

Lemma read_fasta_well_formed_witness :
  read_fasta_file_handle
    (fasta_lines [(text_line "R1 first", [text_line "ACGT"; text_line "TT"]);
                  (text_line "R2", [text_line "GG"])])
  = Ok ((λ rec, (rstrip rec.1, join (strip <$> rec.2)))
        <$> [(text_line "R1 first", [text_line "ACGT"; text_line "TT"]);
             (text_line "R2", [text_line "GG"])]).
Proof.
  apply (read_fasta_well_formed
           [(text_line "R1 first", [text_line "ACGT"; text_line "TT"]);
            (text_line "R2", [text_line "GG"])]).
  - discriminate.
  - repeat constructor; discriminate.
Defined.

Lemma getitem_Err {A} (l : list A) i e : getitem l i = Err e → e = IndexError.
Proof.
  unfold getitem. destruct (norm_index _ i) as [k|e'] eqn:Hk; simpl.
  - destruct (l !! k); [done|]. by intros [= <-].
  - intros [= <-]. by apply norm_index_Err in Hk as [-> _].
Qed.

Lemma load_reference_Err cat rec e : load_reference cat rec = Err e → e = IndexError.
Proof.
  destruct rec as [header seq]. unfold load_reference.
  destruct (getitem (split header) 0) as [seqid|e'] eqn:H; simpl; [done|].
  intros [= <-]. by eapply getitem_Err.
Qed.

Lemma load_references_nameless records cat :
  Exists (λ rec, split rec.1 = []) records →
  foldM load_reference cat records = Err IndexError.
Proof.
  intros Hex. revert cat. induction records as [|[header seq] records IH]; intros cat.
  - by apply Exists_nil in Hex.
  - cbn [foldM]. destruct (load_reference cat (header, seq)) as [cat1|e] eqn:H1.
    + run_bind. apply IH. apply Exists_cons in Hex as [Hhd|Htl]; [|done].
      simpl in Hhd. apply load_reference_Ok in H1 as (seqid & Hid & _).
      unfold seqid_of in Hid. simpl in Hid. rewrite Hhd, getitem_nil in Hid. done.
    + run_bind. by apply load_reference_Err in H1 as ->.
Qed.

(** X5: a record without a name aborts the script. A reference file
    without any header line, the empty file included, is loaded as a single
    record whose header is empty; it, and any file with a header line that
    holds no name, make the script stop on an index error when the catalog
    key is taken, whatever the alignment file holds. *)
Theorem nameless_reference_aborts :
  (∀ lines input_sam,
     Forall sequence_line lines →
     read_fasta_file_handle lines = Ok [(EmptyString, join (strip <$> lines))] ∧
     main lines input_sam = Err IndexError) ∧
  (∀ references records input_sam,
     read_fasta_file_handle references = Ok records →
     Exists (λ rec, split rec.1 = []) records →
     main references input_sam = Err IndexError).
Proof.
  assert (∀ references records input_sam,
            read_fasta_file_handle references = Ok records →
            Exists (λ rec, split rec.1 = []) records →
            main references input_sam = Err IndexError) as Hmain.
  { intros references records input_sam Hread Hex. unfold main. rewrite Hread. run_bind.
    unfold load_references. by rewrite load_references_nameless. }
  split; [|exact Hmain].
  intros lines input_sam Hlines.
  assert (read_fasta_file_handle lines = Ok [(EmptyString, join (strip <$> lines))]) as Hread.
  { unfold read_fasta_file_handle.
    rewrite <- (app_nil_r lines) at 1.
    by rewrite (read_fasta_loop_sequence_lines _ _ _ _ _ Hlines). }
  split; [done|]. eapply Hmain; [done|]. by left.
Qed.

Lemma nameless_reference_aborts_witness :
  (read_fasta_file_handle [text_line "ACGT"; text_line "TT"]
   = Ok [(EmptyString, join (strip <$> [text_line "ACGT"; text_line "TT"]))] ∧
   main [text_line "ACGT"; text_line "TT"] [] = Err IndexError) ∧
  main [text_line ">R1"; text_line "AC"; text_line ">"; text_line "G"] []
  = Err IndexError.
Proof.
  split.
  - apply (proj1 nameless_reference_aborts [text_line "ACGT"; text_line "TT"] []).
    repeat constructor; discriminate.
  - apply (proj2 nameless_reference_aborts
             [text_line ">R1"; text_line "AC"; text_line ">"; text_line "G"]
             [("R1", "AC"); ("", "G")] []).
    + vm_compute. reflexivity.
    + right. left. reflexivity.
Defined.

(** ** More on the catalog *)

Lemma load_references_lookup records cat cat' id :
  foldM load_reference cat records = Ok cat' →
  ref_seq_dict cat' !! id
  = match last_with_id id records with
    | Some seq => Some (upper seq)
    | None => ref_seq_dict cat !! id
    end ∧
  ref_positions_count_dict cat' !! id
  = match last_with_id id records with
    | Some seq => Some (replicate (String.length seq) 0)
    | None => ref_positions_count_dict cat !! id
    end ∧
  total_ref_length cat' = total_ref_length cat + sum_Z ((λ rec, len rec.2) <$> records).
Proof.
  revert cat. induction records as [|[header seq] records IH]; intros cat; cbn [foldM].
  - intros [= <-]. simpl. split; [done|]. split; [done|]. unfold sum_Z. simpl. lia.
  - intros (cat1 & H1 & Hrest)%bind_Ok.
    destruct (IH _ Hrest) as (Hseq & Hcov & Htot).
    apply load_reference_Ok in H1 as (seqid & Hid & ->).
    cbn [last_with_id]. rewrite Hid. cbn [snd].
    rewrite Hseq, Hcov, Htot, fmap_cons, sum_Z_cons. simpl.
    destruct (last_with_id id records) as [s|]; [split; [done|split; [done|lia]]|].
    destruct (decide (seqid = id)) as [->|Hne].
    + rewrite !lookup_insert_eq. split; [done|]. split; [done|lia].
    + rewrite !lookup_insert_ne by done. split; [done|]. split; [done|lia].
Qed.

(** X6: the catalog keeps, for each id, the last record of the file with
    that id: its sequence upper-cased, and a coverage list of zeros of the
    same length; an id that names no record is not a key. The total
    reference length, for its part, adds up every record of the file,
    replaced ones included. *)
Theorem catalog_keeps_last_record records cat :
  load_references records = Ok cat →
  (∀ id,
     ref_seq_dict cat !! id = upper <$> last_with_id id records ∧
     ref_positions_count_dict cat !! id
     = (λ seq, replicate (String.length seq) 0) <$> last_with_id id records) ∧
  total_ref_length cat = sum_Z ((λ rec, len rec.2) <$> records).
Proof.
  intros Hload. unfold load_references in Hload. split.
  - intros id. destruct (load_references_lookup _ _ _ id Hload) as (H1 & H2 & _).
    rewrite H1, H2. cbn [empty_catalog ref_seq_dict ref_positions_count_dict].
    rewrite !lookup_empty. by destruct (last_with_id id records).
  - destruct (load_references_lookup _ _ _ EmptyString Hload) as (_ & _ & H3).
    rewrite H3. simpl. lia.
Qed.

Lemma catalog_keeps_last_record_witness :
  (∀ id,
     ref_seq_dict (Catalog {["R1" := "G"]} {["R1" := [0]]} 3) !! id
     = upper <$> last_with_id id [("R1 one", "ac"); ("R1 two", "g")] ∧
     ref_positions_count_dict (Catalog {["R1" := "G"]} {["R1" := [0]]} 3) !! id
     = (λ seq, replicate (String.length seq) 0)
       <$> last_with_id id [("R1 one", "ac"); ("R1 two", "g")]) ∧
  total_ref_length (Catalog {["R1" := "G"]} {["R1" := [0]]} 3)
  = sum_Z ((λ rec, len rec.2) <$> [("R1 one", "ac"); ("R1 two", "g")]).
Proof.
  apply (catalog_keeps_last_record [("R1 one", "ac"); ("R1 two", "g")]
           (Catalog {["R1" := "G"]} {["R1" := [0]]} 3)).
  vm_compute. reflexivity.
Defined.

(** ** More on the alignment lines *)

(** X7: blank lines are skipped wherever they are: the pass over the lines
    of the alignment file is the pass over its lines that are not blank,
    with the same result or the same error. *)
Theorem blank_lines_ignored refs st lines :
  foldM (process_line refs) st lines = foldM (process_line refs) st (record_lines lines).
Proof.
  unfold record_lines. revert st. induction lines as [|l lines IH]; intros st; [done|].
  rewrite filter_cons. cbn [foldM].
  destruct (decide (strip l ≠ EmptyString)) as [Hl|Hl].
  - cbn [foldM]. destruct (process_line refs st l) as [st1|e]; [|done]. run_bind. apply IH.
  - assert (process_line refs st l = Ok st) as ->.
    { unfold process_line. destruct (strip l); [done|]. by destruct Hl. }
    run_bind. apply IH.
Qed.

Lemma int_unsigned_Err s e : int_unsigned s = Err e → e = ValueError.
Proof.
  unfold int_unsigned. destruct s; [by intros [= <-]|].
  destruct (all_digits _); [done|by intros [= <-]].
Qed.

Lemma int_Err s e : int s = Err e → e = ValueError.
Proof.
  unfold int. destruct (strip s) as [|c d]; [apply int_unsigned_Err|].
  assert (Hneg : (int_unsigned d ≫= λ n, Ok (- n)) = Err e → e = ValueError).
  { destruct (int_unsigned d) as [n|e'] eqn:Hd; simpl; [done|].
    intros [= <-]. by eapply int_unsigned_Err. }
  pose proof (int_unsigned_Err d e) as Hpos.
  pose proof (int_unsigned_Err (String c d) e) as Hother.
  revert Hother.
  destruct c as [[] [] [] [] [] [] [] []]; intros Hother; solve [exact Hother|exact Hpos|exact Hneg].
Qed.

Lemma getitem_beyond {A} (l : list A) (i : Z) :
  Z.of_nat (length l) ≤ i → getitem l i = Err IndexError.
Proof.
  intros Hi. unfold getitem, norm_index.
  destruct (Z.leb_spec 0 i), (Z.ltb_spec i (Z.of_nat (length l))),
    (Z.leb_spec (- Z.of_nat (length l)) i), (Z.ltb_spec i 0); simpl; try done; lia.
Qed.

Lemma parse_sam_tab_short tab :
  (length tab < 11)%nat →
  ∃ e, parse_sam_tab tab = Err e ∧ (e = IndexError ∨ e = ValueError).
Proof.
  intros Hlen. unfold parse_sam_tab.
  assert (H10 : getitem tab 10 = Err IndexError) by (apply getitem_beyond; lia).
  repeat
    match goal with
    | |- ∃ e, (getitem tab 10 ≫= _) = Err e ∧ _ =>
        rewrite H10; exists IndexError; split; [reflexivity|by left]
    | |- ∃ e, (getitem ?t ?i ≫= _) = Err e ∧ _ =>
        let H := fresh "H" in
        destruct (getitem t i) eqn:H; run_bind;
        [|apply getitem_Err in H as ->; exists IndexError; split; [reflexivity|by left]]
    | |- ∃ e, (int ?x ≫= _) = Err e ∧ _ =>
        let H := fresh "H" in
        destruct (int x) eqn:H; run_bind;
        [|apply int_Err in H as ->; exists ValueError; split; [reflexivity|by right]]
    end.
Qed.

(** X8: a line that is not blank and has fewer than 11 fields aborts the
    pass, whatever the state: with an index error when a missing field is
    read, or with a value error when one of the numeric fields before it
    is not an integer. *)
Theorem short_line_aborts refs st l :
  strip l ≠ EmptyString → (length (split l) < 11)%nat →
  ∃ e, process_line refs st l = Err e ∧ (e = IndexError ∨ e = ValueError).
Proof.
  intros Hl Hlen. unfold process_line. destruct (strip l); [done|].
  destruct (parse_sam_tab_short _ Hlen) as (e & -> & He). by exists e.
Qed.

Lemma short_line_aborts_witness :
  ∃ e, process_line sample_refs sample_state (text_line "q1 0 R1 1 255 3S7M * 0 0 CGTAAAAAAA")
       = Err e ∧ (e = IndexError ∨ e = ValueError).
Proof.
  apply (short_line_aborts sample_refs sample_state
           (text_line "q1 0 R1 1 255 3S7M * 0 0 CGTAAAAAAA")).
  - vm_compute. discriminate.
  - vm_compute. lia.
Defined.

Lemma lstrip_empty s : lstrip s = EmptyString → all_space s = true.
Proof.
  induction s as [|c s IH]; simpl; [done|].
  destruct (isspace c); [exact IH|done].
Qed.

Lemma rstrip_all_space s : all_space (rstrip s) = true → rstrip s = EmptyString.
Proof.
  induction s as [|c s IH]; simpl; [done|].
  destruct (rstrip s) as [|c' t].
  - destruct (isspace c) eqn:Hc; [done|]. simpl. by rewrite Hc.
  - intros [_ H]%andb_true_iff. by apply IH in H.
Qed.

Lemma rstrip_empty_split s : rstrip s = EmptyString → split s = [].
Proof.
  induction s as [|c s IH]; [done|].
  cbn [rstrip]. destruct (rstrip s) as [|c' t]; [|done].
  destruct (isspace c) eqn:Hc; [|done]. intros _. cbn [split]. rewrite Hc. by apply IH.
Qed.

(** A line with a field is not blank. *)
Lemma parsed_not_blank l r : parsed l r → strip l ≠ EmptyString.
Proof.
  unfold parsed, parse_sam_tab. intros (q & Hq & _)%bind_Ok Hblank.
  unfold strip in Hblank. apply lstrip_empty, rstrip_all_space, rstrip_empty_split in Hblank.
  rewrite Hblank, getitem_nil in Hq. done.
Qed.

Lemma process_line_parsed refs st l r :
  parsed l r → process_line refs st l = process_record refs st r.
Proof.
  intros Hr. pose proof (parsed_not_blank _ _ Hr) as Hl.
  unfold process_line. destruct (strip l); [done|]. unfold parsed in Hr. by rewrite Hr.
Qed.

(** X9: a record whose subject is not an id of the catalog aborts the
    pass with a key error, raised when its reference sequence is looked
    up, before its CIGAR is read. *)
Theorem unknown_subject_aborts refs st l r :
  parsed l r → refs !! subject_id r = None →
  process_line refs st l = Err KeyError.
Proof.
  intros Hr Hid. rewrite (process_line_parsed _ _ _ _ Hr).
  unfold process_record, walk_record, getkey. by rewrite Hid.
Qed.

Lemma unknown_subject_aborts_witness :
  process_line sample_refs sample_state (text_line "q1 0 R9 1 255 3S7M * 0 0 CGTAAAAAAA *")
  = Err KeyError.
Proof.
  apply (unknown_subject_aborts sample_refs sample_state
           (text_line "q1 0 R9 1 255 3S7M * 0 0 CGTAAAAAAA *")
           (SamRecord "q1" 0 "R9" 1 255 "3S7M" "CGTAAAAAAA")).
  - vm_compute. reflexivity.
  - vm_compute. reflexivity.
Defined.

(** X10: a record whose CIGAR field holds digits only has an empty
    operation list; for a known subject it aborts the pass with an index
    error, raised when the first operation is read. *)
Theorem operatorless_cigar_aborts refs st l r :
  parsed l r → is_Some (refs !! subject_id r) → all_digits (cigar r) = true →
  parse_cigar (cigar r) = Ok [] ∧ process_line refs st l = Err IndexError.
Proof.
  intros Hr [subject_seq Hid] Hd.
  assert (parse_cigar (cigar r) = Ok []) as Hparse
    by (by rewrite parse_cigar_ops, cigar_ops_digits).
  split; [done|]. rewrite (process_line_parsed _ _ _ _ Hr).
  unfold process_record, walk_record, getkey. rewrite Hid. run_bind.
  rewrite Hparse. run_bind. by rewrite soft_clip_spec.
Qed.

Lemma operatorless_cigar_aborts_witness :
  parse_cigar "10" = Ok [] ∧
  process_line sample_refs sample_state (text_line "q1 0 R1 1 255 10 * 0 0 CGTAAAAAAA *")
  = Err IndexError.
Proof.
  apply (operatorless_cigar_aborts sample_refs sample_state
           (text_line "q1 0 R1 1 255 10 * 0 0 CGTAAAAAAA *")
           (SamRecord "q1" 0 "R1" 1 255 "10" "CGTAAAAAAA")).
  - vm_compute. reflexivity.
  - eexists. vm_compute. reflexivity.
  - reflexivity.
Defined.

(** ** More on the alignment walker *)

Lemma foldM_app {A B} (f : A → B → result A) (a : A) (l1 l2 : list B) :
  foldM f a (l1 ++ l2) = (foldM f a l1 ≫= λ a', foldM f a' l2).
Proof.
  revert a. induction l1 as [|b l1 IH]; intros a; cbn [app foldM]; [done|].
  destruct (f a b) as [a'|e]; run_bind; [apply IH|done].
Qed.

Lemma clip_length_nonneg tab : Forall (λ op, 0 ≤ op.2) tab → 0 ≤ clip_length tab.
Proof.
  intros H. destruct H as [|[o n] tab Hn _]; simpl; [done|].
  simpl in Hn. destruct (Ascii.eqb o "S"); lia.
Qed.

(** X11: every operation of the walked CIGAR is accounted for in the
    cursors: after the walk of a record the query cursor stands at the
    query start minus one plus the lengths of the [M] and [I] operations,
    the subject cursor at the subject start minus one plus the lengths of
    the [M] and [D] operations, and the indel count is the total length of
    the [I] and [D] operations (all taken after the leading soft clip). *)
Theorem walk_accounting refs r w tab :
  walk_record refs r = Ok w → parse_cigar (cigar r) = Ok tab →
  w_query_length w = len (query_seq r) ∧
  w_subject_start w = first_pos r - 1 ∧
  w_query_start w = clip_length tab ∧
  query_end (w_final w)
  = w_query_start w - 1 + op_length "M" (clipped tab) + op_length "I" (clipped tab) ∧
  subject_end (w_final w)
  = w_subject_start w - 1 + op_length "M" (clipped tab) + op_length "D" (clipped tab) ∧
  indel_num (w_final w) = op_length "I" (clipped tab) + op_length "D" (clipped tab).
Proof.
  intros Hw. rewrite parse_cigar_ops. intros [= <-].
  apply walk_record_Ok in Hw as (subject_seq & _ & _ & Hlen & Hqs & Hss & Hwalk).
  apply walk_fold_effect in Hwalk as (H1 & H2 & H3 & _). simpl in H1, H2, H3.
  rewrite Hqs, Hss. repeat split; [done|lia..].
Qed.

Lemma walk_accounting_witness :
  w_query_length sample_walk = len (query_seq sample_record) ∧
  w_subject_start sample_walk = first_pos sample_record - 1 ∧
  w_query_start sample_walk = clip_length sample_tab ∧
  query_end (w_final sample_walk)
  = w_query_start sample_walk - 1 + op_length "M" (clipped sample_tab)
    + op_length "I" (clipped sample_tab) ∧
  subject_end (w_final sample_walk)
  = w_subject_start sample_walk - 1 + op_length "M" (clipped sample_tab)
    + op_length "D" (clipped sample_tab) ∧
  indel_num (w_final sample_walk)
  = op_length "I" (clipped sample_tab) + op_length "D" (clipped sample_tab).
Proof.
  apply (walk_accounting sample_refs sample_record sample_walk sample_tab);
    vm_compute; reflexivity.
Defined.

Lemma walk_op_unknown q s st o n : known_operator o = false → walk_op q s st (o, n) = Ok st.
Proof.
  unfold known_operator, walk_op.
  intros [[[H1 H2]%orb_false_iff H3]%orb_false_iff H4]%orb_false_iff.
  by rewrite H1, H2, H3, H4.
Qed.

(** X12: an operation whose operator is not [M], [I], [D] or [S] is
    silently ignored: the walk over an operation list is the walk over the
    list without such operations, with the same result or the same error. *)
Theorem unknown_operators_ignored query_seq subject_seq query_start subject_start overhang tab :
  walk_from query_seq subject_seq query_start subject_start overhang tab
  = walk_from query_seq subject_seq query_start subject_start overhang
      (filter (λ op, known_operator op.1 = true) tab).
Proof.
  unfold walk_from. generalize (WalkState (query_start - 1) (subject_start - 1) 0 0 0 overhang).
  induction tab as [|[o n] tab IH]; intros st; [done|].
  rewrite filter_cons. cbn [fst foldM]. destruct (known_operator o) eqn:Ho.
  - rewrite decide_True by done. cbn [foldM].
    destruct (walk_op query_seq subject_seq st (o, n)); [|done]. run_bind. apply IH.
  - rewrite decide_False by done. rewrite walk_op_unknown by done. run_bind. apply IH.
Qed.

Lemma match_block_in_bounds q s st n st' :
  walk_op q s st ("M"%char, n) = Ok st' → 0 < n →
  - 1 ≤ query_end st → - 1 ≤ subject_end st →
  query_end st' < len q ∧ subject_end st' < len s.
Proof.
  unfold walk_op. simpl. intros (k & Hk & [= <-])%bind_Ok Hn Hq Hs.
  apply local_matches_pairs in Hk as (pairs & Hlen & Hcmp & _).
  rewrite !Z.add_0_r in Hcmp. simpl.
  destruct (lookup_lt_is_Some_2 pairs (Z.to_nat (n - 1))) as [[a b] Hab]; [lia|].
  destruct (Hcmp _ _ _ Hab) as [Ha Hb].
  unfold getitem_str in Ha, Hb.
  apply bind_Ok in Ha as (ka & Hka & _). apply bind_Ok in Hb as (kb & Hkb & _).
  apply norm_index_Ok in Hka as (_ & Hka & _). apply norm_index_Ok in Hkb as (_ & Hkb & _).
  lia.
Qed.

(** X13: a walk that succeeds has read no character outside the two
    sequences: each [M] block of positive length ends within the query
    sequence and, for a position that is at least 1, within the reference
    sequence. *)
Theorem match_blocks_within_sequences refs r w pre n post :
  walk_record refs r = Ok w →
  clipped (cigar_ops None (cigar r)) = pre ++ ("M"%char, n) :: post → 0 < n →
  w_query_start w + op_length "M" pre + op_length "I" pre + n ≤ len (query_seq r) ∧
  (1 ≤ first_pos r →
   ∃ subject_seq, refs !! subject_id r = Some subject_seq ∧
     first_pos r - 1 + op_length "M" pre + op_length "D" pre + n ≤ len subject_seq).
Proof.
  intros Hw Htab Hn.
  apply walk_record_Ok in Hw as (subject_seq & Href & _ & _ & Hqs & _ & Hwalk).
  assert (Forall (λ op, 0 ≤ op.2) (cigar_ops None (cigar r))) as Hnn
    by (by apply cigar_ops_counts_nonneg).
  pose proof (clip_length_nonneg _ Hnn) as Hclip.
  apply clipped_nonneg in Hnn. rewrite Htab in Hnn, Hwalk.
  apply Forall_app in Hnn as [Hpre _].
  unfold walk_from in Hwalk. rewrite foldM_app in Hwalk.
  apply bind_Ok in Hwalk as (st1 & H1 & H2). cbn [foldM] in H2.
  apply bind_Ok in H2 as (st2 & H2 & _).
  apply walk_fold_effect in H1 as (Hq1 & Hs1 & _). simpl in Hq1, Hs1.
  pose proof (op_length_nonneg "M" _ Hpre). pose proof (op_length_nonneg "I" _ Hpre).
  pose proof (op_length_nonneg "D" _ Hpre).
  pose proof (walk_op_effect _ _ _ _ _ _ H2) as (Hq2 & Hs2 & _). simpl in Hq2, Hs2.
  split.
  - assert (query_end st2 < len (query_seq r)); [|lia].
    destruct (decide (- 1 ≤ subject_end st1)) as [Hs|Hs].
    + eapply match_block_in_bounds; [exact H2|lia..].
    + clear Hs. unfold walk_op in H2. simpl in H2.
      apply bind_Ok in H2 as (k & Hk & _).
      apply local_matches_pairs in Hk as (pairs & Hlen & Hcmp & _).
      rewrite !Z.add_0_r in Hcmp.
      destruct (lookup_lt_is_Some_2 pairs (Z.to_nat (n - 1))) as [[a b] Hab]; [lia|].
      destruct (Hcmp _ _ _ Hab) as [Ha _]. unfold getitem_str in Ha.
      apply bind_Ok in Ha as (ka & Hka & _).
      apply norm_index_Ok in Hka as (_ & Hka & _). lia.
  - intros Hpos. exists subject_seq. split; [done|].
    assert (subject_end st2 < len subject_seq); [|lia].
    eapply match_block_in_bounds; [exact H2|lia..].
Qed.

Lemma match_blocks_within_sequences_witness :
  w_query_start sample_walk + op_length "M" [] + op_length "I" [] + 7
  ≤ len (query_seq sample_record) ∧
  (1 ≤ first_pos sample_record →
   ∃ subject_seq, sample_refs !! subject_id sample_record = Some subject_seq ∧
     first_pos sample_record - 1 + op_length "M" [] + op_length "D" [] + 7
     ≤ len subject_seq).
Proof.
  apply (match_blocks_within_sequences sample_refs sample_record sample_walk [] 7 []).
  - vm_compute. reflexivity.
  - vm_compute. reflexivity.
  - lia.
Defined.

(** ** More on the pass *)

Lemma local_matches_range q s qe se i n k :
  local_matches q s qe se i n = Ok k → 0 ≤ k ≤ Z.of_nat n.
Proof.
  intros (pairs & Hlen & _ & ->)%local_matches_pairs.
  pose proof (pairs_split pairs). unfold equal_pairs, unequal_pairs in *. lia.
Qed.

Lemma walk_op_monotone q s st o n st' :
  walk_op q s st (o, n) = Ok st' → 0 ≤ n →
  indel_num st ≤ indel_num st' ∧ matches_num st ≤ matches_num st' ∧
  mismatches_num st ≤ mismatches_num st' ∧ overhang_num st ≤ overhang_num st'.
Proof.
  unfold walk_op. intros H Hn.
  destruct (Ascii.eqb o "M").
  { apply bind_Ok in H as (k & Hk & [= <-]). apply local_matches_range in Hk. simpl. lia. }
  destruct (Ascii.eqb o "I"); [injection H as <-; simpl; lia|].
  destruct (Ascii.eqb o "D"); [injection H as <-; simpl; lia|].
  destruct (Ascii.eqb o "S"); [injection H as <-; simpl; lia|].
  injection H as <-. lia.
Qed.

Lemma walk_fold_monotone q s st tab st' :
  foldM (walk_op q s) st tab = Ok st' → Forall (λ op, 0 ≤ op.2) tab →
  indel_num st ≤ indel_num st' ∧ matches_num st ≤ matches_num st' ∧
  mismatches_num st ≤ mismatches_num st' ∧ overhang_num st ≤ overhang_num st'.
Proof.
  intros H Htab. revert st H. induction Htab as [|[o n] tab Hn _ IH]; intros st; cbn [foldM].
  - intros [= <-]. lia.
  - intros (st1 & H1 & Hrest)%bind_Ok. apply walk_op_monotone in H1; [|done].
    apply IH in Hrest. lia.
Qed.

Lemma walk_record_nonneg refs r w :
  walk_record refs r = Ok w →
  0 ≤ w_query_length w ∧ 0 ≤ matches_num (w_final w) ∧ 0 ≤ mismatches_num (w_final w) ∧
  0 ≤ indel_num (w_final w) ∧ 0 ≤ overhang_num (w_final w).
Proof.
  intros (subject_seq & _ & _ & Hlen & _ & _ & Hwalk)%walk_record_Ok.
  assert (Forall (λ op, 0 ≤ op.2) (cigar_ops None (cigar r))) as Hnn
    by (by apply cigar_ops_counts_nonneg).
  pose proof (clip_length_nonneg _ Hnn) as Hclip.
  apply walk_fold_monotone in Hwalk; [|by apply clipped_nonneg].
  simpl in Hwalk. rewrite Hlen. unfold len. lia.
Qed.

Lemma run_records_totals_le refs st rs st' :
  run_records refs st rs = Ok st' → totals_le (run_totals st) (run_totals st').
Proof.
  unfold run_records. revert st. induction rs as [|r rs IH]; intros st; cbn [foldM].
  - intros [= <-]. unfold totals_le. lia.
  - intros (st1 & H1 & Hrest)%bind_Ok. apply IH in Hrest.
    apply process_record_Ok in H1 as (w & c0 & c1 & Hw & _ & _ & ->).
    apply walk_record_nonneg in Hw. unfold totals_le in *. cbn [run_totals] in Hrest.
    destruct (decide (query_id r = previous_query_id st)); simpl in Hrest; lia.
Qed.

(** X14: the six totals never decrease during a pass: each record leaves
    them unchanged or adds amounts that are not negative, at any point of
    the pass. Starting from zero, as the script does, they are never
    negative. *)
Theorem totals_never_decrease refs st rs1 rs2 st' :
  run_records refs st (rs1 ++ rs2) = Ok st' →
  ∃ st1,
    run_records refs st rs1 = Ok st1 ∧
    totals_le (run_totals st) (run_totals st1) ∧
    totals_le (run_totals st1) (run_totals st') ∧
    (run_totals st = zero_totals → totals_le zero_totals (run_totals st')).
Proof.
  unfold run_records. rewrite foldM_app. intros (st1 & H1 & H2)%bind_Ok.
  exists st1. split; [done|].
  pose proof (run_records_totals_le _ _ _ _ H1) as Hle1.
  pose proof (run_records_totals_le _ _ _ _ H2) as Hle2.
  split; [done|]. split; [done|]. intros Hz. rewrite Hz in Hle1.
  unfold totals_le in *. lia.
Qed.

Lemma totals_never_decrease_witness :
  ∃ st1,
    run_records sample_refs sample_state [sample_record] = Ok st1 ∧
    totals_le (run_totals sample_state) (run_totals st1) ∧
    totals_le (run_totals st1) (run_totals sample_final) ∧
    (run_totals sample_state = zero_totals →
     totals_le zero_totals (run_totals sample_final)).
Proof.
  apply (totals_never_decrease sample_refs sample_state [sample_record]
           [sample_record2; sample_record3] sample_final).
  vm_compute. reflexivity.
Defined.

Lemma coverage_step_depth refs counts r counts' id cov (p : nat) c :
  coverage_step refs counts r = Ok counts' → 1 ≤ first_pos r →
  counts !! id = Some cov → cov !! p = Some c →
  ∃ cov', counts' !! id = Some cov' ∧
          cov' !! p = Some (c + depth_at refs id p [r]).
Proof.
  intros (w & c0 & c1 & Hw & Hc0 & Hincr & ->)%coverage_step_Ok Hpos Hcov Hp.
  cbn [depth_at]. rewrite Hw.
  destruct (walk_record_span _ _ _ Hw) as [Hspan Hstart].
  pose proof (reference_span_nonneg r) as Hnn.
  destruct (decide (subject_id r = id)) as [Heq|Hne].
  - rewrite Heq, lookup_insert_eq. rewrite Heq, Hcov in Hc0. injection Hc0 as <-.
    exists c1. split; [done|].
    rewrite (incr_range_lookup _ _ _ _ _ _ Hincr ltac:(lia) Hp).
    f_equal. case_decide as H1; case_decide as H2;
      first [lia | exfalso; apply H2; split; [done|lia] | destruct H2 as [_ H2]; lia].
  - rewrite lookup_insert_ne by done. exists cov. split; [done|].
    rewrite decide_False by tauto. rewrite Hp. f_equal. lia.
Qed.

(** X15: the coverage of a position is the number of records whose range
    holds it: after a pass over records placed at position 1 or later,
    every entry of every coverage list has grown by the number of records
    mapped to that reference whose inclusive range [subject_start,
    subject_end] contains the position, duplicates of a query included. *)
Theorem coverage_is_depth refs st rs st' id cov (p : nat) c :
  run_records refs st rs = Ok st' → Forall (λ r, 1 ≤ first_pos r) rs →
  positions_count st !! id = Some cov → cov !! p = Some c →
  ∃ cov', positions_count st' !! id = Some cov' ∧
          cov' !! p = Some (c + depth_at refs id p rs).
Proof.
  intros [_ Hc]%run_records_split Hpos. revert Hc. generalize (positions_count st).
  clear st. revert cov c.
  induction Hpos as [|r rs Hr _ IH]; intros cov c counts; cbn [foldM].
  - intros [= <-] Hcov Hp. exists cov. split; [done|]. rewrite Hp. f_equal. simpl. lia.
  - intros (m1 & H1 & Hrest)%bind_Ok Hcov Hp.
    destruct (coverage_step_depth _ _ _ _ _ _ _ _ H1 Hr Hcov Hp) as (cov1 & Hcov1 & Hp1).
    destruct (IH _ _ _ Hrest Hcov1 Hp1) as (cov' & Hcov' & Hp').
    exists cov'. split; [done|]. rewrite Hp'. f_equal.
    cbn [depth_at] in *. lia.
Qed.

Lemma coverage_is_depth_witness :
  ∃ cov', positions_count sample_final !! "R1" = Some cov' ∧
          cov' !! 2%nat = Some (0 + depth_at sample_refs "R1" 2 sample_records).
Proof.
  apply (coverage_is_depth sample_refs sample_state sample_records sample_final "R1"
           (replicate 10 0) 2 0).
  - vm_compute. reflexivity.
  - repeat constructor; discriminate.
  - vm_compute. reflexivity.
  - reflexivity.
Defined.

(** X16: the coverage lists do not depend on the order of the records:
    when a pass over the records completes, the pass over the same records
    in any other order completes too, with the same coverage lists. *)
Theorem coverage_order_independent refs st rs rs' st1 :
  rs ≡ₚ rs' → run_records refs st rs = Ok st1 →
  ∃ st2, run_records refs st rs' = Ok st2 ∧ positions_count st2 = positions_count st1.
Proof.
  intros Hperm [Ht Hc]%run_records_split.
  apply (coverage_fold_perm _ _ _ _ _ Hperm) in Hc.
  apply totals_fold_iff in Ht as (Hall & _ & _).
  rewrite Hperm in Hall.
  destruct (Forall_walked_exists refs (representatives (previous_query_id st) rs'))
    as (ws & Hws).
  { rewrite Forall_forall. intros r Hr. rewrite Forall_forall in Hall. apply Hall.
    by eapply representatives_sublist. }
  exists (RunState (last_query_id (previous_query_id st) rs')
                   (foldl add_record (run_totals st) ws) (positions_count st1)).
  split; [|done]. apply run_records_split. simpl. split; [|done].
  apply totals_fold_iff. split; [done|]. split; [done|]. by exists ws.
Qed.

Lemma coverage_order_independent_witness :
  ∃ st2,
    run_records sample_refs sample_state [sample_record3; sample_record; sample_record2]
    = Ok st2 ∧ positions_count st2 = positions_count sample_final.
Proof.
  apply (coverage_order_independent sample_refs sample_state sample_records
           [sample_record3; sample_record; sample_record2]).
  - unfold sample_records.
    transitivity [sample_record; sample_record3; sample_record2].
    + apply perm_skip, perm_swap.
    + apply perm_swap.
  - vm_compute. reflexivity.
Defined.

Lemma process_record_keys refs st r st' id :
  process_record refs st r = Ok st' →
  positions_count st' !! id = None ↔ positions_count st !! id = None.
Proof.
  intros (w & cov & cov' & _ & Hcov & _ & ->)%process_record_Ok. simpl.
  destruct (decide (subject_id r = id)) as [<-|Hne].
  - rewrite lookup_insert_eq, Hcov. done.
  - by rewrite lookup_insert_ne.
Qed.

Lemma run_records_keys refs st rs st' id :
  run_records refs st rs = Ok st' →
  positions_count st' !! id = None ↔ positions_count st !! id = None.
Proof.
  unfold run_records. revert st. induction rs as [|r rs IH]; intros st; cbn [foldM].
  - by intros [= <-].
  - intros (st1 & H1 & Hrest)%bind_Ok.
    rewrite (IH _ Hrest). by eapply process_record_keys.
Qed.

(** X17: the pass keeps the coverage lists in step with the catalog: after
    a pass from a loaded catalog, the ids with a coverage list are exactly
    the ids of the catalog, each list is as long as the sequence of its
    reference, and no count is negative. *)
Theorem coverage_lists_well_formed records cat rs st :
  load_references records = Ok cat →
  run_records (ref_seq_dict cat) (initial_state cat) rs = Ok st →
  (∀ id, positions_count st !! id = None ↔ ref_seq_dict cat !! id = None) ∧
  (∀ id seq, ref_seq_dict cat !! id = Some seq →
     ∃ cov, positions_count st !! id = Some cov ∧
            length cov = String.length seq ∧ Forall (λ c, 0 ≤ c) cov).
Proof.
  intros Hload Hrun.
  destruct (load_references_well_formed _ _ Hload) as (Hshape0 & Hzero0 & _).
  destruct (run_records_invariant _ _ _ _ Hrun Hshape0 (coverage_zero_nonneg _ Hzero0))
    as [Hshape Hnn].
  split.
  - intros id. rewrite (run_records_keys _ _ _ _ id Hrun). simpl.
    unfold load_references in Hload.
    destruct (load_references_lookup _ _ _ id Hload) as (H1 & H2 & _).
    rewrite H1, H2. cbn [empty_catalog ref_seq_dict ref_positions_count_dict].
    rewrite !lookup_empty. by destruct (last_with_id id records).
  - intros id seq Hid. destruct (Hshape _ _ Hid) as (cov & Hcov & Hlen).
    exists cov. split; [done|]. split; [done|]. by eapply Hnn.
Qed.

Lemma coverage_lists_well_formed_witness :
  (∀ id, positions_count sample_final !! id = None ↔ sample_refs !! id = None) ∧
  (∀ id seq, sample_refs !! id = Some seq →
     ∃ cov, positions_count sample_final !! id = Some cov ∧
            length cov = String.length seq ∧ Forall (λ c, 0 ≤ c) cov).
Proof.
  apply (coverage_lists_well_formed [("R1 ten A", "AAAAAAAAAA")]
           (Catalog sample_refs sample_counts 10) sample_records sample_final).
  - vm_compute. reflexivity.
  - vm_compute. reflexivity.
Defined.

Lemma upper_char_idempotent c : upper_char (upper_char c) = upper_char c.
Proof. destruct c as [[] [] [] [] [] [] [] []]; reflexivity. Qed.

Lemma upper_idempotent s : upper (upper s) = upper s.
Proof. induction s as [|c s IH]; simpl; [done|]. by rewrite upper_char_idempotent, IH. Qed.

(** X21: the bases are compared in upper case on both sides: the stored
    sequence of every reference of a loaded catalog and the query sequence
    of every record read from a line are left unchanged by upper-casing. *)
Theorem sequences_upper_cased :
  (∀ records cat id seq,
     load_references records = Ok cat → ref_seq_dict cat !! id = Some seq →
     upper seq = seq) ∧
  (∀ l r, parsed l r → upper (query_seq r) = query_seq r).
Proof.
  split.
  - intros records cat id seq Hload Hid. unfold load_references in Hload.
    destruct (load_references_lookup _ _ _ id Hload) as (H1 & _).
    rewrite Hid in H1. cbn [empty_catalog ref_seq_dict] in H1. rewrite lookup_empty in H1.
    destruct (last_with_id id records) as [s0|]; [|done].
    injection H1 as ->. apply upper_idempotent.
  - intros l r Hr. unfold parsed, parse_sam_tab in Hr.
    repeat (apply bind_Ok in Hr as (? & _ & Hr)). injection Hr as <-.
    apply upper_idempotent.
Qed.

Lemma sequences_upper_cased_witness :
  upper "G" = "G" ∧ upper (query_seq sample_record2) = query_seq sample_record2.
Proof.
  split.
  - apply (proj1 sequences_upper_cased [("R1 one", "ac"); ("R1 two", "g")]
             (Catalog {["R1" := "G"]} {["R1" := [0]]} 3) "R1" "G").
    + vm_compute. reflexivity.
    + vm_compute. reflexivity.
  - apply (proj2 sequences_upper_cased
             (text_line "q1 0 R1 3 255 2M1I1D2M2S * 0 0 aaaaagg *") sample_record2).
    vm_compute. reflexivity.
Defined.

(** ** More on the final statistics *)

Lemma float_literals :
  float_0 = float_of_int 0 ∧ float_100 = float_of_int 100 ∧ float_1000 = float_of_int 1000.
Proof. repeat split; vm_compute; reflexivity. Qed.

Lemma fdiv_Ok x n q :
  fdiv x n = Ok q → n ≠ 0 ∧ q = SFdiv prec emax x (float_of_int n).
Proof.
  unfold fdiv. destruct (Z.eqb_spec n 0); [done|]. by intros [= <-].
Qed.

Lemma final_stats_inv cat st rep :
  final_stats cat st = Ok rep →
  ∃ tc,
    rep_totals rep = run_totals st ∧
    rep_total_ref_length rep = total_ref_length cat ∧
    rep_total_leven_distance rep
    = total_mismatches_num (run_totals st) + total_indel_num (run_totals st)
      + total_overhang_num (run_totals st) ∧
    total_aligned_contigs_length (run_totals st) ≠ 0 ∧
    foldM (bucket_reference (positions_count st)) (0, replicate 11 0)
          ((map_to_list (ref_seq_dict cat)).*1)
    = Ok (tc, rep_coverage_count_list rep) ∧
    foldM (percent_step (rep_coverage_count_list rep) (total_ref_length cat))
          (0, replicate 11 float_0) (seqZ 0 11)
    = Ok (rep_max_coverage rep, rep_percent_coverage_list rep) ∧
    fdiv (int_times_float tc float_100) (total_ref_length cat)
    = Ok (rep_total_ref_coverage rep).
Proof.
  unfold final_stats. intros (e & He & H)%bind_Ok.
  apply bind_Ok in H as ([tc ccl] & Hhist & H).
  apply bind_Ok in H as ([mc pcl] & Hpc & H).
  apply bind_Ok in H as (trc & Htrc & [= <-]). simpl.
  exists tc. apply fdiv_Ok in He as [He _]. done.
Qed.

Lemma bucket_position_covered c l d c' l' :
  bucket_position (c, l) d = Ok (c', l') → c' = c + (if decide (0 < d) then 1 else 0).
Proof.
  unfold bucket_position. intros (l1 & _ & [= <- <-])%bind_Ok.
  destruct (Z.ltb_spec 0 d); case_decide; lia.
Qed.

Lemma count_positive_cons d cov :
  count_positive (d :: cov) = (if decide (0 < d) then 1 else 0) + count_positive cov.
Proof.
  unfold count_positive. rewrite filter_cons. case_decide; simpl length; lia.
Qed.

Lemma bucket_fold_covered cov c l c' l' :
  foldM bucket_position (c, l) cov = Ok (c', l') → c' = c + count_positive cov.
Proof.
  revert c l. induction cov as [|d cov IH]; intros c l; cbn [foldM].
  - intros [= <- <-]. unfold count_positive. simpl. lia.
  - intros ([c1 l1] & H1 & Hrest)%bind_Ok.
    apply bucket_position_covered in H1. apply IH in Hrest.
    rewrite count_positive_cons. lia.
Qed.

Lemma bucket_references_covered counts ids tc l tc' l' :
  foldM (bucket_reference counts) (tc, l) ids = Ok (tc', l') →
  tc' = tc + covered_positions (omap (λ id, counts !! id) ids).
Proof.
  revert tc l. induction ids as [|id ids IH]; intros tc l; cbn [foldM].
  - intros [= <- <-]. unfold covered_positions. simpl. lia.
  - intros ([tc1 l1] & H1 & Hrest)%bind_Ok.
    unfold bucket_reference, getkey in H1.
    destruct (counts !! id) as [cov|] eqn:Hid; [|done]. run_bind in H1.
    apply bind_Ok in H1 as ([c2 l2] & H2 & [= <- <-]).
    apply bucket_fold_covered in H2. apply IH in Hrest.
    cbn [omap list_omap]. rewrite Hid. unfold covered_positions in *.
    rewrite fmap_cons, sum_Z_cons. simpl in *. lia.
Qed.

Lemma count_positive_bucket_zero cov :
  Forall (λ d, 0 ≤ d) cov →
  count_positive cov + count_in_bucket 0 cov = Z.of_nat (length cov).
Proof.
  induction 1 as [|d cov Hd _ IH]; [done|].
  rewrite count_positive_cons, count_in_bucket_cons. simpl length.
  unfold bucket_of. destruct (Z.leb_spec 10 d); repeat case_decide; lia.
Qed.

Lemma covered_positions_bucket_zero arrays :
  Forall (Forall (λ d, 0 ≤ d)) arrays →
  covered_positions arrays + positions_in_bucket 0 arrays
  = sum_Z ((λ cov, Z.of_nat (length cov)) <$> arrays).
Proof.
  unfold covered_positions, positions_in_bucket.
  induction 1 as [|cov arrays Hcov _ IH]; [done|].
  rewrite !fmap_cons, !sum_Z_cons. pose proof (count_positive_bucket_zero _ Hcov). lia.
Qed.

Lemma coverage_lists_nonneg refs counts :
  coverage_nonneg counts → Forall (Forall (λ d, 0 ≤ d)) (coverage_lists refs counts).
Proof.
  intros Hnn. unfold coverage_lists. generalize ((map_to_list refs).*1).
  induction l as [|id ids IH]; [constructor|].
  cbn [omap list_omap]. destruct (counts !! id) as [cov|] eqn:Hid; [|done].
  constructor; [by eapply Hnn|done].
Qed.

(** X20: the coverage percentage and the first bucket are complementary:
    the reported coverage is the double obtained from the number of catalog
    positions with a depth of 1 or more, multiplied by [100.0] and divided
    by the total reference length, each operation rounded to the nearest
    double; and that number of positions plus the count of bucket 0 is the
    number of positions the catalog holds. *)
Theorem covered_positions_complement references input_sam rep :
  main references input_sam = Ok rep →
  ∃ records cat st b0,
    read_fasta_file_handle references = Ok records ∧
    load_references records = Ok cat ∧
    foldM (process_line (ref_seq_dict cat)) (initial_state cat) input_sam = Ok st ∧
    rep_total_ref_coverage rep
    = SFdiv prec emax
        (int_times_float
           (covered_positions (coverage_lists (ref_seq_dict cat) (positions_count st)))
           float_100)
        (float_of_int (rep_total_ref_length rep)) ∧
    rep_coverage_count_list rep !! 0%nat = Some b0 ∧
    covered_positions (coverage_lists (ref_seq_dict cat) (positions_count st)) + b0
    = catalog_length (ref_seq_dict cat).
Proof.
  intros (records & cat & st & Hread & Hload & Hrun & Hfinal)%main_Ok.
  destruct (load_references_well_formed _ _ Hload) as (Hshape0 & Hzero0 & _).
  destruct (run_lines_records _ _ _ _ Hrun) as (rs & _ & Hrs).
  destruct (run_records_invariant _ _ _ _ Hrs Hshape0 (coverage_zero_nonneg _ Hzero0))
    as [Hshape Hnn].
  destruct (final_stats_inv _ _ _ Hfinal) as (tc & _ & HT & _ & _ & Hhist & _ & Hcov).
  pose proof (bucket_references_covered _ _ _ _ _ _ Hhist) as Htc.
  destruct (bucket_references_Ok _ _ _ _ _ _ Hhist Hnn) as (_ & _ & Hlk).
  specialize (Hlk 0%nat 0 eq_refl). rewrite Z.add_0_l in Hlk.
  apply fdiv_Ok in Hcov as [_ Hcov].
  exists records, cat, st, (positions_in_bucket 0
    (coverage_lists (ref_seq_dict cat) (positions_count st))).
  split; [done|]. split; [done|]. split; [done|]. split; [|split; [exact Hlk|]].
  - rewrite Hcov, HT, Htc, Z.add_0_l. done.
  - rewrite covered_positions_bucket_zero by by apply coverage_lists_nonneg.
    unfold coverage_lists, catalog_length.
    apply (coverage_lists_length (ref_seq_dict cat)); [done|].
    rewrite Forall_forall. intros [id seq] Hin. by apply elem_of_map_to_list in Hin.
Qed.

Lemma covered_positions_complement_witness :
  ∃ records cat st b0,
    read_fasta_file_handle [text_line ">R1"; text_line "ACG"] = Ok records ∧
    load_references records = Ok cat ∧
    foldM (process_line (ref_seq_dict cat)) (initial_state cat)
          [text_line "q1 0 R1 1 255 1M * 0 0 A *"] = Ok st ∧
    rep_total_ref_coverage sample_report_third
    = SFdiv prec emax
        (int_times_float
           (covered_positions (coverage_lists (ref_seq_dict cat) (positions_count st)))
           float_100)
        (float_of_int (rep_total_ref_length sample_report_third)) ∧
    rep_coverage_count_list sample_report_third !! 0%nat = Some b0 ∧
    covered_positions (coverage_lists (ref_seq_dict cat) (positions_count st)) + b0
    = catalog_length (ref_seq_dict cat).
Proof.
  apply (covered_positions_complement
           [text_line ">R1"; text_line "ACG"]
           [text_line "q1 0 R1 1 255 1M * 0 0 A *"]
           sample_report_third).
  vm_compute. reflexivity.
Defined.

Lemma getitem_lookup {A} (l : list A) (i : Z) x :
  0 ≤ i → getitem l i = Ok x ↔ l !! Z.to_nat i = Some x.
Proof.
  intros Hi. unfold getitem. split.
  - intros (k & Hk & H)%bind_Ok. apply norm_index_Ok in Hk as (_ & _ & Hk & _).
    replace (Z.to_nat i) with k by lia. destruct (l !! k); [|done]. by injection H as ->.
  - intros Hx. pose proof (lookup_lt_Some _ _ _ Hx) as Hlt.
    unfold norm_index.
    destruct (Z.leb_spec 0 i), (Z.ltb_spec i (Z.of_nat (length l))); simpl; try lia.
    by rewrite Hx.
Qed.

Lemma percent_step_Ok ccl T mc pcl i mc' pcl' :
  percent_step ccl T (mc, pcl) i = Ok (mc', pcl') →
  T ≠ 0 ∧ ∃ x, getitem ccl i = Ok x ∧ mc' = if 0 <? x then i else mc.
Proof.
  unfold percent_step. intros (x & Hx & (q & Hq & [= <- <-])%bind_Ok)%bind_Ok.
  apply fdiv_Ok in Hq as [HT _]. split; [done|]. by exists x.
Qed.

Lemma percent_fold_max ccl T (n : nat) a mc pcl mc' pcl' :
  foldM (percent_step ccl T) (mc, pcl) (seqZ a (Z.of_nat n)) = Ok (mc', pcl') →
  (mc' = mc ∧ ∀ i x, a ≤ i < a + Z.of_nat n → getitem ccl i = Ok x → x ≤ 0) ∨
  (a ≤ mc' < a + Z.of_nat n ∧ (∃ x, getitem ccl mc' = Ok x ∧ 0 < x) ∧
   ∀ i x, mc' < i < a + Z.of_nat n → getitem ccl i = Ok x → x ≤ 0).
Proof.
  revert a mc pcl. induction n as [|n IH]; intros a mc pcl.
  - simpl. intros [= <- <-]. left. split; [done|]. intros i x Hi. lia.
  - rewrite seqZ_cons by lia. cbn [foldM].
    intros ([mc1 pcl1] & H1 & Hrest)%bind_Ok.
    apply percent_step_Ok in H1 as (_ & x & Hx & ->).
    replace (Z.pred (Z.of_nat (S n))) with (Z.of_nat n) in Hrest by lia.
    apply IH in Hrest as [[-> Hall]|(Hrange & Hpos & Hall)].
    + destruct (Z.ltb_spec 0 x) as [Hx0|Hx0].
      * right. split; [lia|]. split; [by exists x|].
        intros i y Hi. apply Hall. lia.
      * left. split; [done|]. intros i y Hi Hy.
        destruct (decide (i = a)) as [->|Hne].
        -- rewrite Hx in Hy. injection Hy as <-. done.
        -- apply (Hall i); [lia|done].
    + right. split; [lia|]. split; [done|]. intros i y Hi. apply Hall. lia.
Qed.

Lemma positions_in_bucket_nonneg i arrays : 0 ≤ positions_in_bucket i arrays.
Proof.
  unfold positions_in_bucket. induction arrays as [|cov arrays IH]; [done|].
  rewrite fmap_cons, sum_Z_cons. unfold count_in_bucket at 1. lia.
Qed.

(** X19: the highest column of the report is the last bucket that is not
    empty: [max_coverage] lies between 0 and 10, every bucket after it
    holds no position, and the bucket at [max_coverage] holds one at
    least, unless all the buckets are empty, in which case it is 0. *)
Theorem max_coverage_last_bucket references input_sam rep :
  main references input_sam = Ok rep →
  0 ≤ rep_max_coverage rep ≤ 10 ∧
  (∀ (i : nat) x, rep_max_coverage rep < Z.of_nat i →
     rep_coverage_count_list rep !! i = Some x → x = 0) ∧
  ((∃ x, rep_coverage_count_list rep !! Z.to_nat (rep_max_coverage rep) = Some x ∧ 0 < x) ∨
   (rep_max_coverage rep = 0 ∧
    ∀ (i : nat) x, rep_coverage_count_list rep !! i = Some x → x = 0)).
Proof.
  intros (records & cat & st & Hread & Hload & Hrun & Hfinal)%main_Ok.
  destruct (load_references_well_formed _ _ Hload) as (Hshape0 & Hzero0 & _).
  destruct (run_lines_records _ _ _ _ Hrun) as (rs & _ & Hrs).
  destruct (run_records_invariant _ _ _ _ Hrs Hshape0 (coverage_zero_nonneg _ Hzero0))
    as [_ Hnn].
  destruct (final_stats_inv _ _ _ Hfinal) as (tc & _ & _ & _ & _ & Hhist & Hpc & _).
  destruct (bucket_references_Ok _ _ _ _ _ _ Hhist Hnn) as (Hlen & _ & Hlk).
  rewrite length_replicate in Hlen.
  assert (Hbucket : ∀ (i : nat) x, rep_coverage_count_list rep !! i = Some x → 0 ≤ x).
  { intros i x Hx. pose proof (lookup_lt_Some _ _ _ Hx) as Hi.
    rewrite (Hlk i 0) in Hx by (apply lookup_replicate_2; lia).
    injection Hx as <-. pose proof (positions_in_bucket_nonneg i
      (omap (λ id, positions_count st !! id) (map_to_list (ref_seq_dict cat)).*1)). lia. }
  assert (Hzero : ∀ (i : nat) x,
            (∀ y, getitem (rep_coverage_count_list rep) (Z.of_nat i) = Ok y → y ≤ 0) →
            rep_coverage_count_list rep !! i = Some x → x = 0).
  { intros i x Hle Hx. pose proof (Hbucket _ _ Hx).
    assert (x ≤ 0); [|lia]. apply Hle. apply getitem_lookup; [lia|].
    by rewrite Nat2Z.id. }
  change 11 with (Z.of_nat 11) in Hpc.
  apply percent_fold_max in Hpc as [[Hmc Hall]|(Hrange & (x & Hx & Hpos) & Hall)].
  - rewrite Hmc. split; [lia|].
    assert (∀ (i : nat) x, rep_coverage_count_list rep !! i = Some x → x = 0) as Hempty.
    { intros i x Hx. pose proof (lookup_lt_Some _ _ _ Hx) as Hi.
      eapply Hzero; [|exact Hx]. intros y. apply Hall. lia. }
    split; [|by right]. intros i x _. apply Hempty.
  - split; [lia|]. split.
    + intros i y Hi Hy. pose proof (lookup_lt_Some _ _ _ Hy) as Hlt.
      eapply Hzero; [|exact Hy]. intros z. apply Hall. lia.
    + left. exists x. split; [|done]. apply getitem_lookup in Hx; [done|lia].
Qed.

Lemma max_coverage_last_bucket_witness :
  0 ≤ rep_max_coverage sample_report ≤ 10 ∧
  (∀ (i : nat) x, rep_max_coverage sample_report < Z.of_nat i →
     rep_coverage_count_list sample_report !! i = Some x → x = 0) ∧
  ((∃ x, rep_coverage_count_list sample_report
         !! Z.to_nat (rep_max_coverage sample_report) = Some x ∧ 0 < x) ∨
   (rep_max_coverage sample_report = 0 ∧
    ∀ (i : nat) x, rep_coverage_count_list sample_report !! i = Some x → x = 0)).
Proof.
  apply (max_coverage_last_bucket
           [text_line ">R1 ten A"; text_line "AAAAA"; text_line "AAAAA"]
           [text_line "q1 0 R1 1 255 3S7M * 0 0 CGTAAAAAAA *"]
           sample_report).
  vm_compute. reflexivity.
Defined.

Lemma sum_len_nonneg (records : list (string * string)) :
  0 ≤ sum_Z ((λ rec, len rec.2) <$> records).
Proof.
  induction records as [|rec records IH]; [done|].
  rewrite fmap_cons, sum_Z_cons. unfold len at 1. lia.
Qed.

(** X18: a report is only produced from data: whenever the script
    completes, the total reference length is positive, at least one
    contig was aligned, the total aligned length is positive, no total is
    negative, and the Levenshtein distance is the sum of the mismatches,
    indels and overhangs. *)
Theorem report_well_defined references input_sam rep :
  main references input_sam = Ok rep →
  0 < rep_total_ref_length rep ∧
  1 ≤ total_aligned_contigs_num (rep_totals rep) ∧
  0 < total_aligned_contigs_length (rep_totals rep) ∧
  totals_le zero_totals (rep_totals rep) ∧
  rep_total_leven_distance rep
  = total_mismatches_num (rep_totals rep) + total_indel_num (rep_totals rep)
    + total_overhang_num (rep_totals rep).
Proof.
  intros (records & cat & st & Hread & Hload & Hrun & Hfinal)%main_Ok.
  destruct (final_stats_inv _ _ _ Hfinal) as (tc & Htot & HT & Hlev & Hlen & _ & _ & Hcov).
  apply fdiv_Ok in Hcov as [HT0 _].
  destruct (run_lines_records _ _ _ _ Hrun) as (rs & _ & Hrs).
  pose proof (run_records_totals_le _ _ _ _ Hrs) as Hle. cbn [initial_state run_totals] in Hle.
  apply run_records_split in Hrs as [Ht _].
  apply totals_fold_iff in Ht as (_ & _ & ws & Hws & Hws').
  cbn [initial_state run_totals previous_query_id] in Hws, Hws'.
  unfold load_references in Hload.
  destruct (load_references_lookup _ _ _ EmptyString Hload) as (_ & _ & Hsum).
  pose proof (sum_len_nonneg records). cbn [empty_catalog total_ref_length] in Hsum.
  rewrite Htot, HT, Hlev. split; [lia|].
  assert (ws ≠ []) as Hne.
  { intros ->. rewrite Hws' in Hlen. simpl in Hlen. done. }
  split.
  - rewrite Hws', foldl_add_record_count. destruct ws; [done|]. simpl. lia.
  - split; [|done]. unfold totals_le in Hle. simpl in Hle. lia.
Qed.

Lemma report_well_defined_witness :
  0 < rep_total_ref_length sample_report ∧
  1 ≤ total_aligned_contigs_num (rep_totals sample_report) ∧
  0 < total_aligned_contigs_length (rep_totals sample_report) ∧
  totals_le zero_totals (rep_totals sample_report) ∧
  rep_total_leven_distance sample_report
  = total_mismatches_num (rep_totals sample_report)
    + total_indel_num (rep_totals sample_report)
    + total_overhang_num (rep_totals sample_report).
Proof.
  apply (report_well_defined
           [text_line ">R1 ten A"; text_line "AAAAA"; text_line "AAAAA"]
           [text_line "q1 0 R1 1 255 3S7M * 0 0 CGTAAAAAAA *"]
           sample_report).
  vm_compute. reflexivity.
Defined.

(** ** Query ids that come back *)

Lemma representatives_ids prev rs r :
  r ∈ rs →
  query_id r = prev ∨ ∃ r', r' ∈ representatives prev rs ∧ query_id r' = query_id r.
Proof.
  revert prev. induction rs as [|a rs IH]; intros prev Hr; [by apply elem_of_nil in Hr|].
  cbn [representatives]. apply elem_of_cons in Hr as [->|Hr].
  - destruct (decide (query_id a = prev)); [by left|].
    right. exists a. split; [|done]. apply elem_of_app. left. by left.
  - destruct (IH (query_id a) Hr) as [Heq|(r' & Hr' & Heq)].
    + destruct (decide (query_id a = prev)) as [Ha|Ha]; [left; congruence|].
      right. exists a. split; [|done]. apply elem_of_app. left. by left.
    + right. exists r'. split; [|done]. apply elem_of_app. by right.
Qed.

Lemma size_list_to_set_le (l : list string) :
  (size (list_to_set l : gset string) ≤ length l)%nat.
Proof.
  induction l as [|x l IH]; [by rewrite list_to_set_nil, size_empty|].
  rewrite list_to_set_cons, size_union_alt, size_singleton. simpl length.
  assert (list_to_set l ∖ {[x]} ⊆ (list_to_set l : gset string)) as Hsub
    by (intros y [Hy _]%elem_of_difference; exact Hy).
  apply subseteq_size in Hsub. lia.
Qed.

(** X22: a query id is counted once for each of its runs: the number of
    aligned contigs is at least the number of distinct query ids of the
    file, and it is that number when no query id comes back after another
    one, that is when the first records of the contiguous groups have
    pairwise distinct ids. *)
Theorem contigs_count_distinct_ids cat lines st' :
  foldM (process_line (ref_seq_dict cat)) (initial_state cat) lines = Ok st' →
  ∃ rs,
    Forall2 parsed (record_lines lines) rs ∧
    Z.of_nat (distinct_query_ids rs) ≤ total_aligned_contigs_num (run_totals st') ∧
    (NoDup (query_id <$> omap head (query_groups rs)) →
     total_aligned_contigs_num (run_totals st') = Z.of_nat (distinct_query_ids rs)).
Proof.
  intros (rs & Hparsed & [Ht _]%run_records_split)%run_lines_records.
  apply totals_fold_iff in Ht as (_ & _ & ws & Hws & Htot). simpl in Hws, Htot.
  assert (Forall (λ r, query_id r ≠ EmptyString) rs) as Hids.
  { clear -Hparsed. induction Hparsed as [|l r ls rs Hl _ IH]; constructor; [|done].
    by eapply parse_sam_tab_query_id. }
  destruct (representatives_groups EmptyString rs) as [Hreps _].
  { intros r Hr. destruct Hids as [|r0 rs0 H0 _]; [done|]. by injection Hr as <-. }
  assert (list_to_set (query_id <$> rs)
          = (list_to_set (query_id <$> representatives EmptyString rs) : gset string))
    as Hset.
  { apply set_eq. intros x. rewrite !elem_of_list_to_set, !list_elem_of_fmap. split.
    - intros (r & -> & Hr).
      destruct (representatives_ids EmptyString rs r Hr) as [Heq|(r' & Hr' & Heq)].
      + rewrite Forall_forall in Hids. by apply Hids in Hr.
      + by exists r'.
    - intros (r & -> & Hr). exists r. split; [done|]. by eapply representatives_sublist. }
  assert (total_aligned_contigs_num (run_totals st')
          = Z.of_nat (length (query_id <$> representatives EmptyString rs))) as Hcount.
  { rewrite Htot, foldl_add_record_count, length_fmap.
    apply Forall2_length in Hws. simpl. lia. }
  exists rs. split; [done|]. unfold distinct_query_ids. rewrite Hset, Hcount. split.
  - pose proof (size_list_to_set_le (query_id <$> representatives EmptyString rs)). lia.
  - intros Hnd. rewrite <- Hreps in Hnd. by rewrite size_list_to_set.
Qed.

Lemma contigs_count_distinct_ids_witness :
  ∃ rs,
    Forall2 parsed
      (record_lines [text_line "q1 0 R1 1 255 3S7M * 0 0 CGTAAAAAAA *";
                     text_line "q2 0 R1 2 255 4M * 0 0 AAAT *";
                     text_line "q1 0 R1 3 255 2M1I1D2M2S * 0 0 aaaaagg *"]) rs ∧
    Z.of_nat (distinct_query_ids rs) ≤ 3 ∧
    (NoDup (query_id <$> omap head (query_groups rs)) →
     3 = Z.of_nat (distinct_query_ids rs)).
Proof.
  apply (contigs_count_distinct_ids (Catalog sample_refs sample_counts 10)
           [text_line "q1 0 R1 1 255 3S7M * 0 0 CGTAAAAAAA *";
            text_line "q2 0 R1 2 255 4M * 0 0 AAAT *";
            text_line "q1 0 R1 3 255 2M1I1D2M2S * 0 0 aaaaagg *"]
           (RunState "q1" (Totals 3 21 14 1 2 5)
                     {["R1" := [1; 2; 3; 3; 3; 2; 2; 0; 0; 0]]})).
  vm_compute. reflexivity.
Defined.

(** ** Lines before the first header, and bounds on the counts *)

(** X23: sequence lines that come before the first header line are not
    lost and raise nothing: they are stripped and joined, in order, in
    front of the sequence of the first record, and the other records are
    read as usual. *)
Theorem lines_before_first_header pre h ls recs :
  Forall sequence_line pre → Forall sequence_line ls →
  Forall (λ rec, Forall sequence_line rec.2) recs →
  read_fasta_file_handle (pre ++ fasta_lines ((h, ls) :: recs))
  = Ok ((rstrip h, join (strip <$> pre ++ ls))
        :: ((λ rec, (rstrip rec.1, join (strip <$> rec.2))) <$> recs)).
Proof.
  intros Hpre Hls Hrecs. unfold read_fasta_file_handle.
  rewrite (read_fasta_loop_sequence_lines _ _ _ _ _ Hpre).
  cbn [fasta_lines read_fasta_loop]. rewrite getitem_str_first. run_bind.
  change (Ascii.eqb ">" ">") with true. cbn iota. change (0 =? 0) with true. cbn iota.
  rewrite (read_fasta_loop_sequence_lines _ _ _ _ _ Hls).
  rewrite read_fasta_loop_records by done.
  by rewrite fmap_app.
Qed.

Lemma lines_before_first_header_witness :
  read_fasta_file_handle
    ([text_line "ACGT"]
     ++ fasta_lines [(text_line "R1 first", [text_line "TT"]); (text_line "R2", [])])
  = Ok ((rstrip (text_line "R1 first"),
         join (strip <$> [text_line "ACGT"] ++ [text_line "TT"]))
        :: ((λ rec, (rstrip rec.1, join (strip <$> rec.2)))
            <$> [(text_line "R2", [])])).
Proof.
  apply (lines_before_first_header [text_line "ACGT"] (text_line "R1 first")
           [text_line "TT"] [(text_line "R2", [])]);
    repeat constructor; discriminate.
Defined.

(** X24: the counts of a walked record are bounded by its CIGAR: the
    matches and the mismatches each lie between 0 and the total length of
    the [M] operations, the overhang is the total length of the soft
    clips, and neither it nor the indel count is negative. *)
Theorem walk_counts_bounded refs r w tab :
  walk_record refs r = Ok w → parse_cigar (cigar r) = Ok tab →
  0 ≤ matches_num (w_final w) ≤ op_length "M" (clipped tab) ∧
  0 ≤ mismatches_num (w_final w) ≤ op_length "M" (clipped tab) ∧
  0 ≤ indel_num (w_final w) ∧
  0 ≤ overhang_num (w_final w) ∧
  overhang_num (w_final w) = op_length "S" tab.
Proof.
  intros Hw. rewrite parse_cigar_ops. intros [= <-].
  pose proof (walk_record_nonneg _ _ _ Hw) as (_ & H1 & H2 & H3 & H4).
  apply walk_record_Ok in Hw as (subject_seq & _ & _ & _ & _ & _ & Hwalk).
  apply walk_fold_effect in Hwalk as (_ & _ & _ & Hsum & Hov). simpl in Hsum, Hov.
  split; [lia|]. split; [lia|]. split; [done|]. split; [done|].
  rewrite Hov. destruct (cigar_ops None (cigar r)) as [|[o n] tab]; [done|].
  cbn [clip_length clipped]. destruct (Ascii.eqb o "S") eqn:Ho.
  - cbn [op_length]. rewrite Ho. lia.
  - cbn [op_length]. rewrite Ho. lia.
Qed.

Lemma walk_counts_bounded_witness :
  0 ≤ matches_num (w_final sample_walk) ≤ op_length "M" (clipped sample_tab) ∧
  0 ≤ mismatches_num (w_final sample_walk) ≤ op_length "M" (clipped sample_tab) ∧
  0 ≤ indel_num (w_final sample_walk) ∧
  0 ≤ overhang_num (w_final sample_walk) ∧
  overhang_num (w_final sample_walk) = op_length "S" sample_tab.
Proof.
  apply (walk_counts_bounded sample_refs sample_record sample_walk sample_tab);
    vm_compute; reflexivity.
Defined.
